(** * Expense report: rollups and the reimbursement split

    A shallow embedding of the computational core of the report script
    (the browser-side functions [build_main_table], [show_subtype_detail]
    and [compute_reimbursements_and_render] of [main.py]'s page template).

    Number model.  The page computes with JavaScript Numbers.  Amounts, the
    gain and the typed-in weights arrive as finite values (they come from
    JSON and from number inputs); they are modelled as exact rationals [Q],
    and sums, differences, [Math.min] and [Math.max] of such values stay in
    [Q].  Binary rounding and overflow are outside the model.  A division is
    the one operation that can leave the finite numbers, so quotients and
    everything computed from them live in [num], the rationals extended with
    [NaN] and the two infinities, with JavaScript's rules for them.  The sign
    of zero is not modelled.  Where the specification asks for an equality
    that is exact in the page's own arithmetic, the statements concerned are
    also given over binary64 (module [Binary64]), so that the exact result
    and the rounded one can be told apart.

    Object model.  A JavaScript object used as a map is an association list
    in insertion order: writing an existing key keeps its place, writing a
    new key appends.  (Keys that look like array indices, which engines
    enumerate first, and keys inherited from [Object.prototype] are not
    modelled; the main theorems below are stated so that they do not
    depend on the order in which the keys of an object are enumerated.) *)

From Stdlib Require Import List String Ascii Bool ZArith QArith Qminmax Qabs.
From Stdlib Require Import Lia Lqa Permutation Sorted Morphisms Setoid OrdersEx.
From Stdlib Require Floats Uint63.
Import ListNotations.

Local Open Scope string_scope.
Local Open Scope Q_scope.

(** ** JavaScript values *)

Module JS.

(** A Number that may be the result of a division. *)
Inductive num : Type :=
| Fin (q : Q)
| PInf
| NInf
| NaN.

Definition is_finite (a : num) : bool :=
  match a with Fin _ => true | _ => false end.

(** Equality of Numbers as values: rationals up to [==]. *)
Definition num_eq (a b : num) : Prop :=
  match a, b with
  | Fin x, Fin y => x == y
  | PInf, PInf | NInf, NInf | NaN, NaN => True
  | _, _ => False
  end.

Definition num_eqb (a b : num) : bool :=
  match a, b with
  | Fin x, Fin y => Qeq_bool x y
  | PInf, PInf | NInf, NInf | NaN, NaN => true
  | _, _ => false
  end.

Definition Qltb (x y : Q) : bool :=
  match x ?= y with Lt => true | _ => false end.

(** [a / b] on finite operands. *)
Definition div (a b : Q) : num :=
  if Qeq_bool b 0 then
    match a ?= 0 with Eq => NaN | Gt => PInf | Lt => NInf end
  else Fin (a / b).

Definition inf_of_sign (c : comparison) : num :=
  match c with Eq => NaN | Gt => PInf | Lt => NInf end.

(** [a * b]. *)
Definition mul (a b : num) : num :=
  match a, b with
  | NaN, _ | _, NaN => NaN
  | Fin x, Fin y => Fin (x * y)
  | Fin x, PInf | PInf, Fin x => inf_of_sign (x ?= 0)
  | Fin x, NInf | NInf, Fin x => inf_of_sign (0 ?= x)
  | PInf, PInf | NInf, NInf => PInf
  | PInf, NInf | NInf, PInf => NInf
  end.

(** [a + b]. *)
Definition add (a b : num) : num :=
  match a, b with
  | NaN, _ | _, NaN => NaN
  | Fin x, Fin y => Fin (x + y)
  | PInf, NInf | NInf, PInf => NaN
  | PInf, _ | _, PInf => PInf
  | NInf, _ | _, NInf => NInf
  end.

(** [a - b]. *)
Definition sub (a b : num) : num :=
  match a, b with
  | NaN, _ | _, NaN => NaN
  | Fin x, Fin y => Fin (x - y)
  | PInf, PInf | NInf, NInf => NaN
  | PInf, _ | _, NInf => PInf
  | NInf, _ | _, PInf => NInf
  end.

(** [x || 0] on a finite Number: zero is falsy. *)
Definition Qor0 (x : Q) : Q := if Qeq_bool x 0 then 0 else x.

(** [x || 0] on a Number: zero and [NaN] are falsy. *)
Definition or0 (x : num) : num :=
  match x with
  | Fin q => Fin (Qor0 q)
  | NaN => Fin 0
  | PInf => PInf
  | NInf => NInf
  end.

(** [s || d] on a string: the empty string is falsy. *)
Definition str_or (s d : string) : string :=
  if String.eqb s "" then d else s.

(** [arr.reduce((a,b)=>a+b, 0)] on finite Numbers. *)
Definition Qsum (l : list Q) : Q := fold_left Qplus l 0.

(** The same sum on Numbers. *)
Definition num_sum (l : list num) : num := fold_left add l (Fin 0).

(** *** Objects used as maps *)

Definition obj (V : Type) : Type := list (string * V).

Fixpoint get {V : Type} (o : obj V) (k : string) : option V :=
  match o with
  | [] => None
  | (k', v) :: o' => if String.eqb k' k then Some v else get o' k
  end.

(** [o[k] = v]. *)
Fixpoint put {V : Type} (o : obj V) (k : string) (v : V) : obj V :=
  match o with
  | [] => [(k, v)]
  | (k', v') :: o' =>
      if String.eqb k' k then (k', v) :: o' else (k', v') :: put o' k v
  end.

Definition keys {V : Type} (o : obj V) : list string := map fst o.
Definition values {V : Type} (o : obj V) : list V := map snd o.

(** [o[k] || 0] for finite entries; a missing key reads [undefined]. *)
Definition Qget0 (o : obj Q) (k : string) : Q :=
  match get o k with Some v => Qor0 v | None => 0 end.

(** [o[k] || 0] for Number entries. *)
Definition get0 (o : obj num) (k : string) : num :=
  match get o k with Some v => or0 v | None => Fin 0 end.

(** [o[k] = (o[k]||0) + a]. *)
Definition accum (o : obj Q) (k : string) (a : Q) : obj Q :=
  put o k (Qget0 o k + a).

(** [new Set(...).has(k)]. *)
Definition Set_has (s : list string) (k : string) : bool :=
  existsb (String.eqb k) s.

(** *** [Array.prototype.sort]

    A stable insertion sort: the elements are taken from left to right and
    each is placed before the first element already placed that it compares
    strictly below. *)

Fixpoint insert {A : Type} (cmp : A -> A -> Q) (x : A) (l : list A) : list A :=
  match l with
  | [] => [x]
  | y :: l' => if Qltb (cmp x y) 0 then x :: y :: l' else y :: insert cmp x l'
  end.

Definition sort {A : Type} (cmp : A -> A -> Q) (l : list A) : list A :=
  fold_left (fun acc x => insert cmp x acc) l [].

(** [s.toLowerCase()], on the ASCII letters. *)
Definition lower_ascii (c : ascii) : ascii :=
  let n := nat_of_ascii c in
  if (65 <=? n)%nat && (n <=? 90)%nat then ascii_of_nat (n + 32) else c.

Fixpoint toLowerCase (s : string) : string :=
  match s with
  | EmptyString => EmptyString
  | String c s' => String (lower_ascii c) (toLowerCase s')
  end.

End JS.

Import JS.

(** ** Data model *)

(** One element of [DATA.records].  ([is_bill] and [spent_id] are carried by
    the page but read by none of the functions below.) *)
Record ExpenseRecord : Type := mkRecord {
  spent_type : string;
  spent_subtype : string;
  spent_name : string;
  amount : Q;
  member : string
}.

(** [r.amount||0]. *)
Definition amt (r : ExpenseRecord) : Q := Qor0 (amount r).

(** The checked radio button [ante_gran]. *)
Inductive Granularity : Type := GType | GSubtype | GName.

(** ** The Allocator: [compute_reimbursements_and_render] *)

Module Allocator.

(** The sums the second loop over [DATA.records] accumulates. *)
Record Totals : Type := mkTotals {
  total_ante : Q;
  total_post : Q;
  ante_totals_by_member : obj Q;
  post_totals_by_member : obj Q;
  ante_asso_by_member : obj Q;
  ante_perso_by_member : obj Q;
  post_asso_by_member : obj Q;
  post_perso_by_member : obj Q
}.

(** The function's local variables once they are all computed. *)
Record Locals : Type := mkLocals {
  weights : obj num;
  totals : Totals;
  covered_ante : Q;
  remaining_gain : Q;
  allocated_ante : obj num;
  part_after_ante : obj num
}.

(** One entry of [results]. *)
Record Result : Type := mkResult {
  res_total_ante : Q;
  res_total_post : Q;
  total_ante_post : Q;
  part_after_ante_split : num;
  final_after_post : num
}.

(** What the function makes visible: the object it logs, whose [results]
    are also the rows it renders, one per member in the order of [MEMBERS]. *)
Record Summary : Type := mkSummary {
  log_SUM_GAIN : Q;
  log_total_ante : Q;
  log_covered_ante : Q;
  log_remaining_gain : Q;
  results : obj Result
}.

Section Invocation.

(** The page's globals and the state of its form. *)
Variable MEMBERS : list string.
Variable records : list ExpenseRecord.
Variable SUM_GAIN : Q.
Variable gran : Granularity.
Variable selected : list string.
(** [parseFloat(input.value)||0] of the weight input of a member. *)
Variable weight_input : string -> Q.

(** [MEMBERS.length] as a Number. *)
Definition MEMBERS_length : Q := inject_Z (Z.of_nat (List.length MEMBERS)).

(** First loop over [MEMBERS]: the weights as typed, and their sum. *)
Definition read_weights : obj Q * Q :=
  fold_left
    (fun (st : obj Q * Q) m =>
       let v := weight_input m in (put (fst st) m v, snd st + v))
    MEMBERS ([], 0).

Definition wsum : Q := snd read_weights.

(** [if (wsum<=0) ... else ...]: uniform weights, or the typed weights
    divided by their sum. *)
Definition normalized_weights : obj num :=
  if Qle_bool wsum 0 then
    fold_left (fun ws m => put ws m (div 1 MEMBERS_length)) MEMBERS
      (map (fun kv => (fst kv, Fin (snd kv))) (fst read_weights))
  else
    map (fun kv => (fst kv, div (snd kv) wsum)) (fst read_weights).

Definition ante_key (r : ExpenseRecord) : string :=
  match gran with
  | GType => spent_type r
  | GSubtype => spent_subtype r
  | GName => spent_name r
  end.

(** [isAnte[idx] = selected.has(key)]. *)
Definition isAnte : list bool :=
  map (fun r => Set_has selected (ante_key r)) records.

(** [MEMBERS.forEach(m => { o[m] = 0; ... })]. *)
Definition zeros : obj Q := fold_left (fun o m => put o m 0) MEMBERS [].

Definition totals_init : Totals :=
  mkTotals 0 0 zeros zeros zeros zeros zeros zeros.

Definition is_asso (r : ExpenseRecord) : bool := String.eqb (spent_type r) "asso".

(** The body of the second loop over [DATA.records]. *)
Definition totals_step (T : Totals) (ri : ExpenseRecord * bool) : Totals :=
  let r := fst ri in
  let m := member r in
  if snd ri then
    mkTotals
      (total_ante T + amt r)
      (total_post T)
      (accum (ante_totals_by_member T) m (amt r))
      (post_totals_by_member T)
      (if is_asso r then accum (ante_asso_by_member T) m (amt r)
       else ante_asso_by_member T)
      (if is_asso r then ante_perso_by_member T
       else accum (ante_perso_by_member T) m (amt r))
      (post_asso_by_member T)
      (post_perso_by_member T)
  else
    mkTotals
      (total_ante T)
      (total_post T + amt r)
      (ante_totals_by_member T)
      (accum (post_totals_by_member T) m (amt r))
      (ante_asso_by_member T)
      (ante_perso_by_member T)
      (if is_asso r then accum (post_asso_by_member T) m (amt r)
       else post_asso_by_member T)
      (if is_asso r then post_perso_by_member T
       else accum (post_perso_by_member T) m (amt r)).

Definition sum_totals : Totals :=
  fold_left totals_step (combine records isAnte) totals_init.

(** [Object.values(ante_totals_by_member).reduce((a,b)=>a+b,0)]. *)
Definition total_ante_contrib (T : Totals) : Q :=
  Qsum (values (ante_totals_by_member T)).

(** The proportional allocation of the covered ANTE. *)
Definition allocate (T : Totals) (covered : Q) : obj num :=
  let init := fold_left (fun o m => put o m (Fin 0)) MEMBERS [] in
  if Qltb 0 (total_ante_contrib T) then
    fold_left
      (fun o m =>
         put o m (mul (Fin covered)
                      (div (Qget0 (ante_totals_by_member T) m)
                           (total_ante_contrib T))))
      MEMBERS init
  else init.

(** The remaining gain split by the weights. *)
Definition split (remaining : Q) (ws : obj num) : obj num :=
  fold_left (fun o m => put o m (mul (Fin remaining) (get0 ws m))) MEMBERS [].

Definition locals : Locals :=
  let weights := normalized_weights in
  let totals := sum_totals in
  let covered_ante := Qmin SUM_GAIN (total_ante totals) in
  let remaining_gain := Qmax (SUM_GAIN - covered_ante) 0 in
  let allocated_ante := allocate totals covered_ante in
  let part_after_ante := split remaining_gain weights in
  mkLocals weights totals covered_ante remaining_gain allocated_ante
    part_after_ante.

(** The body of the loop that fills [results]. *)
Definition result_of (L : Locals) (m : string) : Result :=
  let totalAnte := Qget0 (ante_totals_by_member (totals L)) m in
  let totalPost := Qget0 (post_totals_by_member (totals L)) m in
  let totalAP := totalAnte + totalPost in
  let partAfter := get0 (part_after_ante L) m in
  let finalAfterPost := sub partAfter (Fin totalPost) in
  mkResult totalAnte totalPost totalAP partAfter finalAfterPost.

Definition results_of (L : Locals) : obj Result :=
  fold_left (fun res m => put res m (result_of L m)) MEMBERS [].

Definition summary_of (L : Locals) : Summary :=
  mkSummary SUM_GAIN (total_ante (totals L)) (covered_ante L)
    (remaining_gain L) (results_of L).

Definition compute_reimbursements_and_render : Summary := summary_of locals.

(** The rendered rows: [MEMBERS.forEach(m => { const r = results[m]; ... })]. *)
Definition rendered_rows (S : Summary) : list (string * Result) :=
  flat_map
    (fun m => match get (results S) m with Some r => [(m, r)] | None => [] end)
    MEMBERS.

End Invocation.

(** The Numbers of one entry of [results]. *)
Definition result_numbers (r : Result) : list num :=
  [Fin (res_total_ante r); Fin (res_total_post r); Fin (total_ante_post r);
   part_after_ante_split r; final_after_post r].

(** Every Number the function makes visible. *)
Definition exposed_numbers (S : Summary) : list num :=
  [Fin (log_SUM_GAIN S); Fin (log_total_ante S); Fin (log_covered_ante S);
   Fin (log_remaining_gain S)]
  ++ flat_map result_numbers (values (results S)).

(** The locals with another value in [allocated_ante]. *)
Definition with_allocated_ante (a : obj num) (L : Locals) : Locals :=
  mkLocals (weights L) (totals L) (covered_ante L) (remaining_gain L) a
    (part_after_ante L).

End Allocator.

(** ** The Allocator's arithmetic over binary64

    The statements of [compute_reimbursements_and_render] that cover the
    ANTE and that normalize the weights, with the Numbers of the page:
    IEEE 754 binary64, rounded to nearest. *)

Module Binary64.

Import PrimFloat.
Local Open Scope bool_scope.
Local Open Scope float_scope.

(** [x || 0]: zero and [NaN] are falsy. *)
Definition or0 (x : float) : float := if is_nan x || is_zero x then 0 else x.

(** [Math.min(a, b)]; of two zeros the negative one. *)
Definition Math_min (a b : float) : float :=
  if is_nan a || is_nan b then nan
  else if a <? b then a
  else if b <? a then b
  else if get_sign a then a else b.

(** [Math.max(a, b)]; of two zeros the positive one. *)
Definition Math_max (a b : float) : float :=
  if is_nan a || is_nan b then nan
  else if b <? a then a
  else if a <? b then b
  else if get_sign a then b else a.

(** [total_ante += r.amount||0], over the amounts of the ANTE records. *)
Definition total_ante (amounts : list float) : float :=
  fold_left (fun t a => t + or0 a) amounts 0.

Definition covered_ante (SUM_GAIN total_ante : float) : float :=
  Math_min SUM_GAIN total_ante.

Definition remaining_gain (SUM_GAIN covered_ante : float) : float :=
  Math_max (SUM_GAIN - covered_ante) 0.

(** [MEMBERS.length] as a Number. *)
Definition of_length (n : nat) : float :=
  of_uint63 (Uint63.of_Z (Z.of_nat n)).

(** The weights after [if (wsum<=0) ... else ...], from the typed weights
    of the members in the order of [MEMBERS]. *)
Definition normalized_weights (typed : list float) : list float :=
  let wsum := fold_left add typed 0 in
  if wsum <=? 0
  then map (fun _ => 1 / of_length (List.length typed)) typed
  else map (fun v => v / wsum) typed.

(** The remaining gain split by the weights. *)
Definition split (remaining : float) (ws : list float) : list float :=
  map (fun w => or0 (remaining * or0 w)) ws.

(** [arr.reduce((a,b)=>a+b, 0)]. *)
Definition sum (l : list float) : float := fold_left add l 0.

(** The tests and the two selections above, on the floats of the
    standard library's specification of binary64. *)
Import SpecFloat.

Definition SF_is_nan (X : spec_float) : bool :=
  match X with S754_nan => true | _ => false end.

Definition SF_is_zero (X : spec_float) : bool :=
  match X with S754_zero _ => true | _ => false end.

Definition SF_sign (X : spec_float) : bool :=
  match X with
  | S754_zero s | S754_infinity s | S754_finite s _ _ => s
  | S754_nan => false
  end.

Definition SFmin (A B : spec_float) : spec_float :=
  if SF_is_nan A || SF_is_nan B then S754_nan
  else if SFltb A B then A
  else if SFltb B A then B
  else if SF_sign A then A else B.

Definition SFmax (A B : spec_float) : spec_float :=
  if SF_is_nan A || SF_is_nan B then S754_nan
  else if SFltb B A then A
  else if SFltb A B then B
  else if SF_sign A then B else A.

End Binary64.

(** ** The Aggregator: [build_main_table] *)

Module MainTable.

(** One value of [byType[t]]: the row of a (type, subtype) pair. *)
Record Row : Type := mkRow {
  totals : obj Q;
  total : Q;
  rowKey : string;
  row_spent_type : string
}.

(** One block of the table body: the header line of a type, its rows in
    display order, and its subtotal. *)
Record Group : Type := mkGroup {
  header : string;
  rows : list Row;
  subtotal : Q
}.

Record Table : Type := mkTable {
  groups : list Group;
  grandTotal : Q
}.

(** The update of [cur] at the end of the first loop's body. *)
Definition add_record (cur : Row) (r : ExpenseRecord) : Row :=
  let m := str_or (member r) "" in
  mkRow (accum (totals cur) m (amt r))
        (Qor0 (total cur) + amt r)
        (rowKey cur)
        (row_spent_type cur).

(** [r.spent_type || ''] and [r.spent_subtype || '(no subtype)']. *)
Definition type_key (r : ExpenseRecord) : string := str_or (spent_type r) "".

Definition sub_key (r : ExpenseRecord) : string :=
  str_or (spent_subtype r) "(no subtype)".

(** The body of the first loop.  A type or a row that is not there yet is
    created at the end of its object, then the row is updated in place. *)
Definition byType_step (byType : obj (obj Row)) (r : ExpenseRecord)
  : obj (obj Row) :=
  let t := type_key r in
  let rowKey := sub_key r in
  let group := match get byType t with Some g => g | None => [] end in
  let cur :=
    match get group rowKey with
    | Some c => c
    | None => mkRow [] 0 rowKey t
    end in
  put byType t (put group rowKey (add_record cur r)).

Definition byType (records : list ExpenseRecord) : obj (obj Row) :=
  fold_left byType_step records [].

(** [byType[t][k]], when both keys are there. *)
Definition row_lookup (bt : obj (obj Row)) (t k : string) : option Row :=
  match get bt t with Some g => get g k | None => None end.

(** [byType[t][k].total], zero when the row is not there. *)
Definition row_total (bt : obj (obj Row)) (t k : string) : Q :=
  match row_lookup bt t k with Some row => total row | None => 0 end.

Section Collation.

(** [a.localeCompare(b)]: the host's collation order, negative, zero or
    positive. *)
Variable localeCompare : string -> string -> Z.

(** The comparison function given to [Object.keys(byType).sort]. *)
Definition type_cmp (a b : string) : Q :=
  if String.eqb (toLowerCase a) "asso" then -1
  else if String.eqb (toLowerCase b) "asso" then 1
  else if String.eqb (toLowerCase a) "perso" then -1
  else if String.eqb (toLowerCase b) "perso" then 1
  else inject_Z (localeCompare a b).

Definition order (bt : obj (obj Row)) : list string := sort type_cmp (keys bt).

(** The comparison function given to [Object.values(byType[t]).sort]. *)
Definition row_cmp (a b : Row) : Q := total b - total a.

Definition sorted_rows (bt : obj (obj Row)) (t : string) : list Row :=
  sort row_cmp (values (match get bt t with Some g => g | None => [] end)).

Definition group_of (bt : obj (obj Row)) (t : string) : Group :=
  let rows := sorted_rows bt t in
  mkGroup t rows (fold_left (fun s r => s + Qor0 (total r)) rows 0).

Definition build_main_table (records : list ExpenseRecord) : Table :=
  let bt := byType records in
  let gs := map (group_of bt) (order bt) in
  mkTable gs (fold_left (fun g grp => g + subtotal grp) gs 0).

End Collation.

End MainTable.

(** ** The Aggregator: the table of [show_subtype_detail] *)

Module Detail.

Record Parts : Type := mkParts {
  asso : Q;
  perso : Q
}.

(** One value of [rowsMap]: the row of a name. *)
Record Row : Type := mkRow {
  name : string;
  totals : obj Q;
  total : Q;
  parts : Parts
}.

(** The three updates of [rowsMap[name]] in the loop's body. *)
Definition add_record (cur : Row) (r : ExpenseRecord) : Row :=
  mkRow (name cur)
        (accum (totals cur) (member r) (amt r))
        (total cur + amt r)
        (if String.eqb (spent_type r) "asso"
         then mkParts (asso (parts cur) + amt r) (perso (parts cur))
         else mkParts (asso (parts cur)) (perso (parts cur) + amt r)).

(** [r.spent_name || '(no name)']. *)
Definition name_key (r : ExpenseRecord) : string :=
  str_or (spent_name r) "(no name)".

Definition rowsMap_step (rowsMap : obj Row) (r : ExpenseRecord) : obj Row :=
  let name := name_key r in
  let cur :=
    match get rowsMap name with
    | Some c => c
    | None => mkRow name [] 0 (mkParts 0 0)
    end in
  put rowsMap name (add_record cur r).

(** [allRecs]: the records of the clicked subtype, of every type. *)
Definition allRecs (records : list ExpenseRecord) (subtype : string)
  : list ExpenseRecord :=
  filter (fun r => String.eqb (spent_subtype r) subtype) records.

(** The rows of the detail table, [Object.values(rowsMap)].  (The type of
    the clicked line only goes into the panel's title.) *)
Definition show_subtype_detail (records : list ExpenseRecord)
  (subtype : string) : list Row :=
  values (fold_left rowsMap_step (allRecs records subtype) []).

End Detail.

(** ** The specification's vocabulary

    The partition of the ledger and the sums over it, written as the
    specification words them, to be compared with what the loops compute. *)

Module Spec.

Section Partition.

Variable records : list ExpenseRecord.
Variable gran : Granularity.
Variable selected : list string.

(** A record is ANTE iff its value at the chosen granularity is selected. *)
Definition selects (r : ExpenseRecord) : bool :=
  Set_has selected (Allocator.ante_key gran r).

Definition ANTE : list ExpenseRecord := filter selects records.

Definition POST : list ExpenseRecord :=
  filter (fun r => negb (selects r)) records.

End Partition.

(** The normalized weight of a known member: the typed weight over the sum
    of the typed weights, or the uniform weight when that sum is at most
    zero. *)
Definition normalized_weight (MEMBERS : list string)
  (weight_input : string -> Q) (m : string) : Q :=
  let total := Qsum (map weight_input MEMBERS) in
  if Qle_bool total 0
  then 1 / inject_Z (Z.of_nat (List.length MEMBERS))
  else weight_input m / total.

(** [sum(amount for r in l)]. *)
Definition sum_amounts (l : list ExpenseRecord) : Q := Qsum (map amount l).

(** The records of [l] attributed to member [m]. *)
Definition of_member (m : string) (l : list ExpenseRecord)
  : list ExpenseRecord :=
  filter (fun r => String.eqb (member r) m) l.

(** The records of [l] whose category is [c]. *)
Definition of_category (c : string) (l : list ExpenseRecord)
  : list ExpenseRecord :=
  filter (fun r => String.eqb (spent_type r) c) l.


(** The records of [l] that [build_main_table] puts in the row of type [t]
    and subtype key [k]. *)
Definition of_group (t k : string) (l : list ExpenseRecord)
  : list ExpenseRecord :=
  filter
    (fun r => String.eqb (MainTable.type_key r) t
              && String.eqb (MainTable.sub_key r) k)
    l.





End Spec.

(** ** Sample ledgers *)

Module Sample.

(** The specification's concrete scenario: two members, one personal and
    one association expense, equal weights. *)
Definition members : list string := ["A"; "B"].

Definition ledger : list ExpenseRecord :=
  [mkRecord "perso" "" "" 100 "A"; mkRecord "asso" "" "" 50 "B"].

Definition halves (m : string) : Q := 1 # 2.

(** A ledger whose only line is a refund, as the rows "robes, -49" of the
    script's embedded example. *)
Definition refund : list ExpenseRecord :=
  [mkRecord "perso" "vetement" "robes" (-49) "Lucie"].

(** Two members who both paid association expenses. *)
Definition shared : list ExpenseRecord :=
  [mkRecord "asso" "corep" "flyer" 30 "A";
   mkRecord "asso" "corep" "affiche" 10 "B";
   mkRecord "perso" "poste" "poste" 7 "B"].

(** A ledger with no attributed line, hence no known member. *)
Definition unattributed : list ExpenseRecord :=
  [mkRecord "perso" "divers" "the" 5 ""].

(** One name bought under three categories. *)
Definition mixed : list ExpenseRecord :=
  [mkRecord "asso" "corep" "flyer" 22 "H";
   mkRecord "perso" "corep" "flyer" 20 "L";
   mkRecord "don" "corep" "flyer" 7 "L"].

(** A collation for the examples: the order of the code units. *)
Definition code_unit_compare (a b : string) : Z :=
  match String_as_OT.compare a b with
  | Lt => (-1)%Z
  | Eq => 0%Z
  | Gt => 1%Z
  end.

End Sample.

(** ** The Aggregator: the member columns of the main table *)

Module Cells.

(** The cell of member [m] in the line of a row: [r.totals[m]||0]. *)
Definition row_cell (row : MainTable.Row) (m : string) : Q :=
  Qget0 (MainTable.totals row) m.

(** The cell of member [m] in the subtotal line of a block:
    [rows.reduce((acc,row)=>acc + (row.totals[m]||0),0)]. *)
Definition subtotal_cell (rows : list MainTable.Row) (m : string) : Q :=
  fold_left (fun acc row => acc + Qget0 (MainTable.totals row) m) rows 0.

(** The cell of member [m] in the TOTAL line:
    [DATA.records.reduce((acc,r)=>acc + ((r.member===m)?(r.amount||0):0),0)]. *)
Definition total_cell (records : list ExpenseRecord) (m : string) : Q :=
  fold_left
    (fun acc r => acc + (if String.eqb (member r) m then amt r else 0))
    records 0.

End Cells.

(** ** The Aggregator: [render_member_legend_and_totals] *)

Module Legend.

(** [(r && r.member) ? r.member : '']. *)
Definition memberKey (r : ExpenseRecord) : string :=
  if String.eqb (member r) "" then "" else member r.

(** [Number(r && r.amount ? r.amount : 0) || 0]. *)
Definition amt (r : ExpenseRecord) : Q :=
  Qor0 (if Qeq_bool (amount r) 0 then 0 else amount r).

(** The loop over [recs] that fills [totals]. *)
Definition totals (records : list ExpenseRecord) : obj Q :=
  fold_left (fun totals r => accum totals (memberKey r) (amt r)) records [].

(** The lines of the totals table, one per member: the member and
    [totals[m] || 0], the value given to [fmtMoney]. *)
Definition member_totals (MEMBERS : list string)
  (records : list ExpenseRecord) : list (string * Q) :=
  map (fun m => (m, Qget0 (totals records) m)) MEMBERS.

End Legend.

(** ** The Aggregator: the pies of [show_subtype_detail] *)

Module Pies.

(** [assoRecs] and [persoRecs]. *)
Definition assoRecs (records : list ExpenseRecord) (subtype : string)
  : list ExpenseRecord :=
  filter (fun r => String.eqb (spent_type r) "asso")
    (Detail.allRecs records subtype).

Definition persoRecs (records : list ExpenseRecord) (subtype : string)
  : list ExpenseRecord :=
  filter (fun r => String.eqb (spent_type r) "perso")
    (Detail.allRecs records subtype).

(** The two arrays given to the plot.  A value is what [sums[m]] reads:
    [None] stands for [undefined].  (The colours of the slices are left
    out.) *)
Record Pie : Type := mkPie {
  labels : list string;
  vals : list (option Q)
}.

(** [recs.forEach(r=> sums[r.member] = (sums[r.member]||0) + r.amount)]. *)
Definition sums_of (recs : list ExpenseRecord) : obj Q :=
  fold_left (fun sums r => accum sums (member r) (amount r)) recs [].

(** [MEMBERS.forEach(m=>{ if ((sums[m]||0) > 0) { labels.push(m);
    vals.push(sums[m]); ... } })]. *)
Definition slices (MEMBERS : list string) (sums : obj Q) : Pie :=
  fold_left
    (fun p m =>
       if Qltb 0 (Qget0 sums m)
       then mkPie (labels p ++ [m]) (vals p ++ [get sums m])
       else p)
    MEMBERS (mkPie [] []).

(** What a [div] of the plot area ends up holding: a pie, or a line of
    text when the pie would have no slice. *)
Inductive Panel : Type :=
| Plot (p : Pie)
| Muted (text : string).

Definition panel_of (p : Pie) (text : string) : Panel :=
  match labels p with
  | [] => Muted text
  | _ :: _ => Plot p
  end.

Section Plots.

Variable MEMBERS : list string.
Variable records : list ExpenseRecord.
Variable subtype : string.

(** The inner function of the mode "two". *)
Definition buildPie (recs : list ExpenseRecord) (title : string) : Panel :=
  panel_of (slices MEMBERS (sums_of recs)) ("Aucun " ++ title).

(** The panels [make_plots(mode)] leaves in the plot area. *)
Definition make_plots (mode : string) : list Panel :=
  if String.eqb mode "two" then
    [buildPie (assoRecs records subtype) "asso";
     buildPie (persoRecs records subtype) "perso"]
  else
    let recs :=
      if String.eqb mode "combined"
      then (assoRecs records subtype ++ persoRecs records subtype)%list
      else if String.eqb mode "only_asso" then assoRecs records subtype
      else persoRecs records subtype in
    [panel_of (slices MEMBERS (sums_of recs)) "Aucune donnée"].

End Plots.

End Pies.

(** ** The selection panel: [build_ante_choice_ui] *)

Module AnteChoice.

(** [items.add(x)] on a [Set]: insertion order, no duplicate. *)
Definition Set_add (s : list string) (x : string) : list string :=
  if Set_has s x then s else (s ++ [x])%list.

(** What a record adds to [items] at a granularity. *)
Definition item (gran : Granularity) (r : ExpenseRecord) : string :=
  match gran with
  | GType => str_or (spent_type r) "(no type)"
  | GSubtype => str_or (spent_subtype r) "(no subtype)"
  | GName => str_or (spent_name r) "(no name)"
  end.

Definition items (gran : Granularity) (records : list ExpenseRecord)
  : list string :=
  fold_left (fun s r => Set_add s (item gran r)) records [].

(** The order of [sort()] without a comparison function: strings compared
    code unit by code unit. *)
Definition default_compare (a b : string) : Q :=
  match String_as_OT.compare a b with
  | Lt => -1
  | Eq => 0
  | Gt => 1
  end.

(** [Array.from(items).sort()]. *)
Definition sorted (gran : Granularity) (records : list ExpenseRecord)
  : list string :=
  sort default_compare (items gran records).

(** One checkbox of the panel.  (Its [id] is read by no function; the
    labels are taken to be free of characters that HTML escapes, so that the
    [value] attribute reads back as the label.) *)
Record Checkbox : Type := mkCheckbox {
  value : string;
  checked : bool
}.

(** [const t = targets.find(p); if (t) t.checked = true]. *)
Fixpoint check_first (p : string -> bool) (l : list Checkbox)
  : list Checkbox :=
  match l with
  | [] => []
  | c :: l' =>
      if p (value c) then mkCheckbox (value c) true :: l'
      else c :: check_first p l'
  end.

(** The checkboxes [renderChoices(gran)] leaves in the panel. *)
Definition renderChoices (gran : Granularity) (records : list ExpenseRecord)
  : list Checkbox :=
  let boxes := map (fun it => mkCheckbox it false) (sorted gran records) in
  match gran with
  | GType =>
      check_first (fun v => String.eqb (toLowerCase v) "asso") boxes
  | _ => boxes
  end.

(** The set [selected] that [compute_reimbursements_and_render] reads from
    the panel. *)
Definition selected (boxes : list Checkbox) : list string :=
  fold_left (fun s ch => if checked ch then Set_add s (value ch) else s)
    boxes [].

End AnteChoice.

(** Strings in the order of their code units, equal ones included. *)
Definition string_le (a b : string) : Prop := String_as_OT.lt a b \/ a = b.

(** ** The default weights: [default_weights] *)

Module Defaults.

(** [s.includes(sub)]. *)
Fixpoint includes (s sub : string) : bool :=
  String.prefix sub s ||
  match s with
  | EmptyString => false
  | String _ s' => includes s' sub
  end.

Section Host.

(** [m.toLowerCase()] of the host, on all of Unicode: the names looked for
    have letters outside ASCII. *)
Variable toLowerCase : string -> string.

(** The weight the first loop gives to a member. *)
Definition initial_weight (m : string) : Q :=
  let nm := toLowerCase m in
  if includes nm "helene" || includes nm "hélène" then 1 # 2
  else if includes nm "lucie" then 1 # 2
  else 0.

Definition default_weights (members : list string) : obj num :=
  let w := fold_left (fun w m => put w m (initial_weight m)) members [] in
  let s := Qsum (values w) in
  if Qltb 0 s then map (fun kv => (fst kv, div (snd kv) s)) w
  else
    fold_left
      (fun w m => put w m (div 1 (inject_Z (Z.of_nat (List.length members)))))
      members (map (fun kv => (fst kv, Fin (snd kv))) w).

End Host.

End Defaults.

(** ** The ingestion script: the Python functions of [main.py]

    A Python [str] is the list of its code points.  [float] values are exact
    rationals, as the Numbers of the page are. *)

Module Py.

Local Open Scope bool_scope.
Local Open Scope N_scope.

Definition str : Type := list N.

Definition is_empty (s : str) : bool :=
  match s with [] => true | _ :: _ => false end.

(** [c.isspace()]: the white space of [str.strip] and [str.split]. *)
Definition isspace (c : N) : bool :=
  ((9 <=? c) && (c <=? 13)) || ((28 <=? c) && (c <=? 32))
  || (c =? 133) || (c =? 160) || (c =? 5760)
  || ((8192 <=? c) && (c <=? 8202))
  || (c =? 8232) || (c =? 8233) || (c =? 8239) || (c =? 8287)
  || (c =? 12288).

Fixpoint lstrip (s : str) : str :=
  match s with
  | [] => []
  | c :: s' => if isspace c then lstrip s' else s
  end.

Definition rstrip (s : str) : str := rev (lstrip (rev s)).

(** [s.strip()]. *)
Definition strip (s : str) : str := rstrip (lstrip s).

(** [s.split()]: the maximal runs of characters that are not white space.
    [cur] is the run being read. *)
Fixpoint split_from (cur : str) (s : str) : list str :=
  match s with
  | [] => if is_empty cur then [] else [cur]
  | c :: s' =>
      if isspace c
      then if is_empty cur then split_from [] s' else cur :: split_from [] s'
      else split_from (cur ++ [c])%list s'
  end.

Definition split (s : str) : list str := split_from [] s.

(** [sep.join(l)]. *)
Fixpoint join (sep : str) (l : list str) : str :=
  match l with
  | [] => []
  | [w] => w
  | w :: l' => (w ++ sep ++ join sep l')%list
  end.

(** [clean_member_name(name)]; [None] is a missing value, for which
    [pd.isna] holds. *)
Definition clean_member_name (name : option str) : str :=
  match name with
  | None => []
  | Some x =>
      let s := strip x in
      join [32] (split s)
  end.

(** *** [parse_amount] *)

(** [s.replace(c, '')] for a one-character [c]. *)
Definition remove (c : N) (s : str) : str :=
  filter (fun x => negb (x =? c)) s.

(** [s.count(c)] for a one-character [c]. *)
Definition count (c : N) (s : str) : nat :=
  List.length (filter (N.eqb c) s).

(** [s.replace(c, d)] for one-character [c] and [d]. *)
Definition replace_char (c d : N) (s : str) : str :=
  map (fun x => if x =? c then d else x) s.

Definition is_digit (c : N) : bool := (48 <=? c) && (c <=? 57).

(** The characters that [re.sub(r'[^0-9\.-]', '', s)] keeps. *)
Definition kept (c : N) : bool := is_digit c || (c =? 46) || (c =? 45).

(** The number that a string of decimal digits writes. *)
Definition digits_value (ds : str) : Z :=
  fold_left (fun acc d => (acc * 10 + Z.of_N (d - 48))%Z) ds 0%Z.

(** The longest prefix of digits, and what follows it. *)
Fixpoint span_digits (s : str) : str * str :=
  match s with
  | [] => ([], [])
  | c :: s' =>
      if is_digit c
      then let (ds, rest) := span_digits s' in (c :: ds, rest)
      else ([], s)
  end.

(** [float(s)] for an [s] without a sign, made of digits and points:
    digits, then possibly a point and digits, with a digit somewhere. *)
Definition float_unsigned (s : str) : option Q :=
  let (ip, rest) := span_digits s in
  match rest with
  | [] =>
      if is_empty ip then None else Some (inject_Z (digits_value ip))
  | c :: fp =>
      if (c =? 46) && forallb is_digit fp
         && negb (is_empty ip && is_empty fp)
      then Some (inject_Z (digits_value ip) +
                 inject_Z (digits_value fp) /
                 inject_Z (10 ^ Z.of_nat (List.length fp)))%Q
      else None
  end.

(** [float(s)] for an [s] made of digits, points and minus signs; [None]
    when it raises [ValueError]. *)
Definition float (s : str) : option Q :=
  match s with
  | c :: s' =>
      if c =? 45 then option_map Qopp (float_unsigned s')
      else float_unsigned s
  | [] => float_unsigned s
  end.

Definition str_eqb (a b : str) : bool :=
  match list_compare N.compare a b with Eq => true | _ => false end.

(** The end of [parse_amount], from the test on the comma: the number
    that the text without its spaces writes. *)
Definition read_number (s : str) : Q :=
  let s :=
    if Nat.eqb (count 44 s) 1 && Nat.eqb (count 46 s) 0
    then replace_char 44 46 s
    else s in
  let s2 := filter kept s in
  if str_eqb s2 [] || str_eqb s2 [45] || str_eqb s2 [46] then 0%Q
  else
    match float s2 with
    | Some v => v
    | None => 0%Q
    end.

Definition parse_amount (x : option str) : Q :=
  match x with
  | None => 0%Q
  | Some x =>
      let s := strip x in
      if is_empty s then 0%Q
      else read_number (remove 32 (remove 160 s))
  end.

(** The characters that can change what [parse_amount] returns: the digits,
    the point, the minus sign and the comma. *)
Definition significant (c : N) : bool := kept c || (c =? 44).

(** The decimal number with the integer digits [a] and the fraction digits
    [b], negated when [neg] holds. *)
Definition decimal (neg : bool) (a b : str) : Q :=
  let v := (inject_Z (digits_value a) +
            inject_Z (digits_value b) /
            inject_Z (10 ^ Z.of_nat (List.length b)))%Q in
  if neg then (- v)%Q else v.

(** *** [compute_aggregates]: the known members *)

(** [Series.unique()]: the values in the order of their first appearance. *)
Definition unique (l : list str) : list str :=
  fold_left (fun seen x => if existsb (str_eqb x) seen then seen
                           else (seen ++ [x])%list)
    l [].

(** The order of [sorted] on strings: code point by code point. *)
Definition str_cmp (a b : str) : Q :=
  match list_compare N.compare a b with
  | Lt => (-1)%Q
  | Eq => 0%Q
  | Gt => 1%Q
  end.

(** [a < b] on strings. *)
Definition str_lt (a b : str) : Prop := list_compare N.compare a b = Lt.

(** A run of characters that [split] returns: not empty, without white
    space. *)
Definition word (w : str) : Prop :=
  w <> [] /\ Forall (fun c => isspace c = false) w.

(** [sorted(l)], a stable sort. *)
Definition sorted (l : list str) : list str := sort str_cmp l.

(** [members], from the column [member_clean]. *)
Definition members (member_clean : list str) : list str :=
  sorted (filter (fun m => negb (is_empty (strip m))) (unique member_clean)).

(** The column [member_clean] that [load_and_clean] computes from the
    column [member] of the file. *)
Definition member_clean (member_column : list (option str)) : list str :=
  map clean_member_name member_column.

End Py.

(** *** [safe_json_for_js]

    The text that [json.dumps] returns is taken as it is, in its UTF-8
    bytes. *)

Module Json.

(** [s.replace(old, new)] for a non-empty [old]: the occurrences of [old]
    are replaced from left to right, without overlap.  [skip] counts the
    characters of an occurrence that are still to be passed over. *)
Fixpoint replace_from (old new : string) (skip : nat) (s : string) : string :=
  match s with
  | EmptyString => EmptyString
  | String c s' =>
      match skip with
      | S k => replace_from old new k s'
      | O =>
          if String.prefix old s
          then new ++ replace_from old new (String.length old - 1) s'
          else String c (replace_from old new 0 s')
      end
  end.

Definition replace (old new s : string) : string := replace_from old new 0 s.

(** [old in s]. *)
Fixpoint contains (s old : string) : bool :=
  String.prefix old s ||
  match s with
  | EmptyString => false
  | String _ s' => contains s' old
  end.

Section Dumps.

(** The values [json.dumps] is given, and its result with the options
    [ensure_ascii=False, allow_nan=False]. *)
Variable value : Type.
Variable json_dumps : value -> string.

Definition safe_json_for_js (obj : value) : string :=
  replace "</" "<\/" (json_dumps obj).

End Dumps.

End Json.

(** * Properties *)

(** ** Numbers and objects *)

Lemma Qor0_eq (x : Q) : Qor0 x == x.
Proof.
  unfold Qor0. destruct (Qeq_bool x 0) eqn:E; [|reflexivity].
  apply Qeq_bool_eq in E. now rewrite E.
Qed.

Lemma amt_eq (r : ExpenseRecord) : amt r == amount r.
Proof. apply Qor0_eq. Qed.

Lemma Qltb_lt (x y : Q) : Qltb x y = true <-> x < y.
Proof.
  unfold Qltb. rewrite Qlt_alt. destruct (x ?= y); split; congruence.
Qed.

Lemma Qltb_ge (x y : Q) : Qltb x y = false <-> y <= x.
Proof.
  rewrite <- not_true_iff_false, Qltb_lt. split.
  - apply Qnot_lt_le.
  - intros H L. now apply Qle_not_lt in H.
Qed.

Lemma div_nonzero (a b : Q) : ~ b == 0 -> div a b = Fin (a / b).
Proof.
  intros H. unfold div. destruct (Qeq_bool b 0) eqn:E; [|reflexivity].
  now apply Qeq_bool_eq in E.
Qed.

(** A quotient is finite exactly when the divisor is not zero. *)
Lemma div_finite_iff (a b : Q) : is_finite (div a b) = true <-> ~ b == 0.
Proof.
  unfold div. destruct (Qeq_bool b 0) eqn:E.
  - apply Qeq_bool_eq in E. split; [|tauto].
    destruct (a ?= 0); discriminate.
  - apply Qeq_bool_neq in E. simpl. tauto.
Qed.

Lemma Qsum_acc (l : list Q) (a : Q) : fold_left Qplus l a == a + Qsum l.
Proof.
  unfold Qsum. revert a. induction l as [|x l IH]; intros a; simpl.
  - ring.
  - rewrite (IH (a + x)), (IH (0 + x)). ring.
Qed.

Lemma Qsum_cons (x : Q) (l : list Q) : Qsum (x :: l) == x + Qsum l.
Proof. unfold Qsum at 1. simpl. rewrite Qsum_acc. ring. Qed.

Lemma Qsum_app (l1 l2 : list Q) : Qsum (l1 ++ l2) == Qsum l1 + Qsum l2.
Proof.
  induction l1 as [|x l1 IH]; simpl.
  - unfold Qsum at 2. simpl. ring.
  - rewrite !Qsum_cons, IH. ring.
Qed.

Section ObjectFacts.

Context {V : Type}.

Lemma get_put_same (o : obj V) (k : string) (v : V) :
  get (put o k v) k = Some v.
Proof.
  induction o as [|[k' v'] o IH]; simpl.
  - now rewrite String.eqb_refl.
  - destruct (String.eqb k' k) eqn:E; simpl; rewrite E; auto.
Qed.

Lemma get_put_other (o : obj V) (k k' : string) (v : V) :
  k <> k' -> get (put o k v) k' = get o k'.
Proof.
  intros N. induction o as [|[k0 v0] o IH]; simpl.
  - apply String.eqb_neq in N. now rewrite N.
  - destruct (String.eqb k0 k) eqn:E; simpl.
    + apply String.eqb_eq in E. subst k0.
      apply String.eqb_neq in N. now rewrite N.
    + now rewrite IH.
Qed.


Lemma get_None_keys (o : obj V) (k : string) :
  get o k = None <-> ~ In k (keys o).
Proof.
  induction o as [|[k' v'] o IH]; simpl; [tauto|].
  destruct (String.eqb k' k) eqn:E.
  - apply String.eqb_eq in E. split; [discriminate|]. intros H. elim H. now left.
  - apply String.eqb_neq in E. rewrite IH. tauto.
Qed.

(** [M.forEach(m => o[m] = f(m))]. *)
Lemma fold_put_get_notin (f : string -> V) (M : list string) (o : obj V)
  (k : string) :
  ~ In k M -> get (fold_left (fun o m => put o m (f m)) M o) k = get o k.
Proof.
  revert o. induction M as [|m M IH]; intros o N; simpl; [reflexivity|].
  simpl in N. rewrite IH by tauto. apply get_put_other. tauto.
Qed.

Lemma fold_put_get_in (f : string -> V) (M : list string) (o : obj V)
  (k : string) :
  In k M -> get (fold_left (fun o m => put o m (f m)) M o) k = Some (f k).
Proof.
  revert o. induction M as [|m M IH]; intros o; simpl; [tauto|].
  intros H. destruct (in_dec string_dec k M) as [I|N]; [now apply IH|].
  destruct H as [->|H]; [|tauto].
  rewrite fold_put_get_notin by assumption. apply get_put_same.
Qed.

End ObjectFacts.

Lemma Qget0_put_same (o : obj Q) (k : string) (v : Q) :
  Qget0 (put o k v) k == v.
Proof. unfold Qget0. rewrite get_put_same. apply Qor0_eq. Qed.

Lemma Qget0_put_other (o : obj Q) (k k' : string) (v : Q) :
  k <> k' -> Qget0 (put o k v) k' = Qget0 o k'.
Proof. intros N. unfold Qget0. now rewrite get_put_other. Qed.

Lemma Qget0_accum_same (o : obj Q) (k : string) (a : Q) :
  Qget0 (accum o k a) k == Qget0 o k + a.
Proof. apply Qget0_put_same. Qed.

Lemma Qget0_accum_other (o : obj Q) (k k' : string) (a : Q) :
  k <> k' -> Qget0 (accum o k a) k' = Qget0 o k'.
Proof. apply Qget0_put_other. Qed.

Lemma Qget0_accum (o : obj Q) (k k' : string) (a : Q) :
  Qget0 (accum o k a) k' ==
  Qget0 o k' + (if String.eqb k k' then a else 0).
Proof.
  destruct (String.eqb k k') eqn:E.
  - apply String.eqb_eq in E. subst. apply Qget0_accum_same.
  - apply String.eqb_neq in E. rewrite Qget0_accum_other by assumption. ring.
Qed.

Lemma Qsum_values_put (o : obj Q) (k : string) (v : Q) :
  Qsum (values (put o k v)) + Qget0 o k == Qsum (values o) + v.
Proof.
  unfold Qget0. induction o as [|[k' v'] o IH]; simpl.
  - unfold Qsum. simpl. ring.
  - destruct (String.eqb k' k) eqn:E; simpl; rewrite !Qsum_cons.
    + rewrite Qor0_eq. ring.
    + lra.
Qed.

Lemma Qsum_values_accum (o : obj Q) (k : string) (a : Q) :
  Qsum (values (accum o k a)) == Qsum (values o) + a.
Proof.
  unfold accum. pose proof (Qsum_values_put o k (Qget0 o k + a)) as H.
  lra.
Qed.

(** An object whose entries are all zero. *)
Lemma fold_put_zero_values (M : list string) (o : obj Q) :
  Forall (fun v => v == 0) (values o) ->
  Forall (fun v => v == 0) (values (fold_left (fun o m => put o m 0) M o)).
Proof.
  revert o. induction M as [|m M IH]; intros o H; simpl; [assumption|].
  apply IH. clear IH. induction o as [|[k' v'] o IH]; simpl.
  - constructor; [reflexivity|constructor].
  - inversion H; subst. destruct (String.eqb k' m); simpl.
    + constructor; [reflexivity|assumption].
    + constructor; auto.
Qed.

Lemma Qsum_zero (l : list Q) : Forall (fun v => v == 0) l -> Qsum l == 0.
Proof.
  induction 1 as [|x l Hx _ IH]; [reflexivity|].
  rewrite Qsum_cons, Hx, IH. ring.
Qed.

Lemma Qget0_zero (o : obj Q) (k : string) :
  Forall (fun v => v == 0) (values o) -> Qget0 o k == 0.
Proof.
  unfold Qget0. induction o as [|[k' v'] o IH]; simpl; intros H.
  - reflexivity.
  - inversion H; subst. destruct (String.eqb k' k); auto.
    now rewrite Qor0_eq.
Qed.

(** ** The Allocator *)

Import Allocator Spec.

Lemma sum_amounts_cons (r : ExpenseRecord) (l : list ExpenseRecord) :
  sum_amounts (r :: l) == amount r + sum_amounts l.
Proof. unfold sum_amounts. simpl. apply Qsum_cons. Qed.

Lemma sum_amounts_nil : sum_amounts [] == 0.
Proof. reflexivity. Qed.

Section TotalsLoop.

Variable f : ExpenseRecord -> bool.

#[local] Abbreviation run l T :=
  (fold_left totals_step (combine l (map f l)) T).

Local Ltac loop_step IH :=
  simpl; unfold totals_step at 2; simpl;
  match goal with |- context [f ?r] => destruct (f r) eqn:?; simpl end;
  rewrite IH; simpl; rewrite ?sum_amounts_cons, ?sum_amounts_nil.

Lemma loop_total_ante (l : list ExpenseRecord) (T : Totals) :
  total_ante (run l T) == total_ante T + sum_amounts (filter f l).
Proof.
  revert T. induction l as [|r l IH]; intros T.
  - simpl. rewrite sum_amounts_nil. ring.
  - loop_step IH; rewrite ?amt_eq; ring.
Qed.


Lemma loop_ante_values (l : list ExpenseRecord) (T : Totals) :
  Qsum (values (ante_totals_by_member (run l T))) ==
  Qsum (values (ante_totals_by_member T)) + sum_amounts (filter f l).
Proof.
  revert T. induction l as [|r l IH]; intros T.
  - simpl. rewrite sum_amounts_nil. ring.
  - loop_step IH; rewrite ?Qsum_values_accum, ?amt_eq; ring.
Qed.


Lemma loop_ante_member (m : string) (l : list ExpenseRecord) (T : Totals) :
  Qget0 (ante_totals_by_member (run l T)) m ==
  Qget0 (ante_totals_by_member T) m + sum_amounts (of_member m (filter f l)).
Proof.
  revert T. induction l as [|r l IH]; intros T.
  - simpl. rewrite sum_amounts_nil. ring.
  - loop_step IH; rewrite ?Qget0_accum;
      destruct (String.eqb (member r) m) eqn:?; simpl;
      rewrite ?sum_amounts_cons, ?amt_eq; ring.
Qed.

Lemma loop_post_member (m : string) (l : list ExpenseRecord) (T : Totals) :
  Qget0 (post_totals_by_member (run l T)) m ==
  Qget0 (post_totals_by_member T) m +
  sum_amounts (of_member m (filter (fun r => negb (f r)) l)).
Proof.
  revert T. induction l as [|r l IH]; intros T.
  - simpl. rewrite sum_amounts_nil. ring.
  - loop_step IH; rewrite ?Qget0_accum;
      destruct (String.eqb (member r) m) eqn:?; simpl;
      rewrite ?sum_amounts_cons, ?amt_eq; ring.
Qed.

End TotalsLoop.

Section AllocatorFacts.

Variable MEMBERS : list string.
Variable records : list ExpenseRecord.
Variable SUM_GAIN : Q.
Variable gran : Granularity.
Variable selected : list string.
Variable weight_input : string -> Q.

#[local] Abbreviation T := (sum_totals MEMBERS records gran selected).
#[local] Abbreviation L := (locals MEMBERS records SUM_GAIN gran selected weight_input).
#[local] Abbreviation ANTE := (Spec.ANTE records gran selected).
#[local] Abbreviation POST := (Spec.POST records gran selected).

Lemma zeros_values : Forall (fun v => v == 0) (values (zeros MEMBERS)).
Proof. apply fold_put_zero_values. constructor. Qed.

Lemma total_ante_spec : total_ante T == sum_amounts ANTE.
Proof.
  unfold sum_totals, isAnte.
  rewrite (loop_total_ante (selects gran selected)). cbn [total_ante total_post totals_init].
  rewrite Qplus_0_l. reflexivity.
Qed.


Lemma total_ante_contrib_spec : total_ante_contrib T == sum_amounts ANTE.
Proof.
  unfold total_ante_contrib, sum_totals, isAnte.
  rewrite (loop_ante_values (selects gran selected)).
  cbn [ante_totals_by_member post_totals_by_member totals_init].
  rewrite (Qsum_zero _ zeros_values), Qplus_0_l. reflexivity.
Qed.


Lemma ante_member_spec (m : string) :
  Qget0 (ante_totals_by_member T) m == sum_amounts (of_member m ANTE).
Proof.
  unfold sum_totals, isAnte.
  rewrite (loop_ante_member (selects gran selected)).
  cbn [ante_totals_by_member post_totals_by_member totals_init].
  rewrite (Qget0_zero _ m zeros_values), Qplus_0_l. reflexivity.
Qed.

Lemma post_member_spec (m : string) :
  Qget0 (post_totals_by_member T) m == sum_amounts (of_member m POST).
Proof.
  unfold sum_totals, isAnte.
  rewrite (loop_post_member (selects gran selected)).
  cbn [ante_totals_by_member post_totals_by_member totals_init].
  rewrite (Qget0_zero _ m zeros_values), Qplus_0_l. reflexivity.
Qed.

Lemma covered_ante_eq : covered_ante L = Qmin SUM_GAIN (total_ante T).
Proof. reflexivity. Qed.

Lemma remaining_gain_eq :
  remaining_gain L = Qmax (SUM_GAIN - covered_ante L) 0.
Proof. reflexivity. Qed.

Lemma sum_amounts_partition (f : ExpenseRecord -> bool)
  (l : list ExpenseRecord) :
  sum_amounts l ==
  sum_amounts (filter f l) + sum_amounts (filter (fun r => negb (f r)) l).
Proof.
  induction l as [|r l IH]; simpl.
  - reflexivity.
  - destruct (f r); simpl; rewrite !sum_amounts_cons, IH; ring.
Qed.


Lemma results_of_get (Lc : Locals) (m : string) :
  In m MEMBERS -> get (results_of MEMBERS Lc) m = Some (result_of Lc m).
Proof. intros H. unfold results_of. now apply fold_put_get_in. Qed.

Lemma rendered_rows_eq (Lc : Locals) :
  rendered_rows MEMBERS (summary_of MEMBERS SUM_GAIN Lc) =
  map (fun m => (m, result_of Lc m)) MEMBERS.
Proof.
  unfold rendered_rows. cbn [results summary_of].
  assert (G : forall l, incl l MEMBERS ->
    flat_map (fun m => match get (results_of MEMBERS Lc) m with
                       | Some r => [(m, r)] | None => [] end) l =
    map (fun m => (m, result_of Lc m)) l).
  { induction l as [|m l IH]; intros I; simpl; [reflexivity|].
    rewrite results_of_get by (apply I; now left).
    simpl. f_equal. apply IH. intros x Hx. apply I. now right. }
  apply G, incl_refl.
Qed.

Lemma part_after_ante_get (m : string) :
  In m MEMBERS ->
  get (part_after_ante L) m =
  Some (mul (Fin (remaining_gain L)) (get0 (weights L) m)).
Proof.
  intros H. cbn [part_after_ante locals]. unfold split.
  now rewrite (fold_put_get_in
    (fun m => mul (Fin (remaining_gain L)) (get0 (weights L) m))).
Qed.

(** Gain conservation in exact arithmetic: the covered ANTE and the
    remaining gain add up to the gain, for every ledger, selection, weights
    and gain (a negative gain included). *)
Lemma gain_conservation :
  let L := locals MEMBERS records SUM_GAIN gran selected weight_input in
  covered_ante L + remaining_gain L == SUM_GAIN.
Proof.
  cbv zeta. rewrite remaining_gain_eq, covered_ante_eq.
  destruct (Q.min_spec SUM_GAIN (total_ante T)) as [[H E]|[H E]];
    rewrite E;
    match goal with |- context [Qmax ?a ?b] =>
      destruct (Q.max_spec a b) as [[H' E']|[H' E']]; rewrite E' end;
    lra.
Qed.

(** C1, as amended.  The covered ANTE is the minimum of the gain and of the
    sum of the ANTE amounts.  For a non-negative gain it is zero when that
    sum is zero, and it is the sum itself, a negative amount, when the sum
    is negative. *)
Theorem covered_ante_is_min :
  0 <= SUM_GAIN ->
  covered_ante L == Qmin SUM_GAIN (sum_amounts ANTE) /\
  (sum_amounts ANTE == 0 -> covered_ante L == 0) /\
  (sum_amounts ANTE < 0 -> covered_ante L == sum_amounts ANTE).
Proof.
  intros G. rewrite covered_ante_eq.
  pose proof total_ante_spec as E.
  destruct (Q.min_spec SUM_GAIN (total_ante T)) as [[H1 E1]|[H1 E1]];
    destruct (Q.min_spec SUM_GAIN (sum_amounts ANTE)) as [[H2 E2]|[H2 E2]];
    rewrite E1, ?E2; repeat split; intros; lra.
Qed.



(** The weights. *)

Lemma read_weights_fold (M : list string) (o : obj Q) (s : Q) :
  fold_left
    (fun (st : obj Q * Q) m =>
       let v := weight_input m in (put (fst st) m v, snd st + v))
    M (o, s) =
  (fold_left (fun o m => put o m (weight_input m)) M o,
   fold_left Qplus (map weight_input M) s).
Proof.
  revert o s. induction M as [|m M IH]; intros o s; simpl; [reflexivity|].
  apply IH.
Qed.

Lemma wsum_spec :
  wsum MEMBERS weight_input = Qsum (map weight_input MEMBERS).
Proof.
  unfold wsum, read_weights. rewrite read_weights_fold. reflexivity.
Qed.

Lemma read_weights_get (m : string) :
  In m MEMBERS ->
  get (fst (read_weights MEMBERS weight_input)) m = Some (weight_input m).
Proof.
  intros H. unfold read_weights. rewrite read_weights_fold. simpl.
  now apply fold_put_get_in.
Qed.

Lemma MEMBERS_length_pos : MEMBERS <> [] -> 0 < MEMBERS_length MEMBERS.
Proof.
  intros H. unfold MEMBERS_length. destruct MEMBERS as [|m M]; [congruence|].
  change 0 with (inject_Z 0). rewrite <- Zlt_Qlt. simpl List.length. lia.
Qed.

Lemma weights_uniform (m : string) :
  wsum MEMBERS weight_input <= 0 -> In m MEMBERS ->
  get (weights L) m = Some (Fin (1 / MEMBERS_length MEMBERS)).
Proof.
  intros W H. cbn [weights locals]. unfold normalized_weights.
  apply Qle_bool_iff in W. rewrite W.
  rewrite (fold_put_get_in (fun _ => div 1 (MEMBERS_length MEMBERS)))
    by assumption.
  rewrite div_nonzero; [reflexivity|].
  assert (P : 0 < MEMBERS_length MEMBERS).
  { apply MEMBERS_length_pos. intros E. rewrite E in H. destruct H. }
  lra.
Qed.

Lemma get_map_values {A B : Type} (g : A -> B) (o : obj A) (k : string) :
  get (map (fun kv => (fst kv, g (snd kv))) o) k = option_map g (get o k).
Proof.
  induction o as [|[k' v'] o IH]; simpl; [reflexivity|].
  destruct (String.eqb k' k); auto.
Qed.

Lemma weights_normalized (m : string) :
  0 < wsum MEMBERS weight_input -> In m MEMBERS ->
  get (weights L) m =
  Some (Fin (weight_input m / wsum MEMBERS weight_input)).
Proof.
  intros W H. cbn [weights locals]. unfold normalized_weights.
  destruct (Qle_bool (wsum MEMBERS weight_input) 0) eqn:E.
  - apply Qle_bool_iff in E. lra.
  - rewrite (get_map_values (fun v => div v (wsum MEMBERS weight_input))).
    rewrite read_weights_get by assumption. simpl.
    rewrite div_nonzero; [reflexivity|lra].
Qed.







Lemma allocated_ante_get (m : string) :
  In m MEMBERS ->
  get (allocated_ante L) m =
  Some (if Qltb 0 (total_ante_contrib T)
        then Fin (covered_ante L *
                  (Qget0 (ante_totals_by_member T) m / total_ante_contrib T))
        else Fin 0).
Proof.
  intros H. cbn [allocated_ante locals]. unfold allocate.
  destruct (Qltb 0 (total_ante_contrib T)) eqn:E.
  - apply Qltb_lt in E.
    rewrite (fold_put_get_in
      (fun m => mul (Fin (covered_ante L))
                  (div (Qget0 (ante_totals_by_member T) m)
                       (total_ante_contrib T)))) by assumption.
    rewrite div_nonzero by lra. reflexivity.
  - now rewrite (fold_put_get_in (fun _ => Fin 0)).
Qed.


(** A product by a zero gain is falsy, whatever the weight. *)
Lemma or0_mul_zero (z : Q) (w : num) :
  z == 0 -> num_eq (or0 (mul (Fin z) w)) (Fin 0).
Proof.
  intros Z. destruct w as [q| | |]; simpl.
  - rewrite Qor0_eq, Z. ring.
  - rewrite Z. simpl. reflexivity.
  - assert (E : (0 ?= z) = Eq) by (apply Qeq_alt; now symmetry).
    rewrite E. simpl. reflexivity.
  - reflexivity.
Qed.

(** C3, as amended.  When the gain is zero and the ANTE total is not
    negative, the covered ANTE and the remaining gain are zero, and in every
    row the part after the split is zero and the final amount is the
    opposite of the member's POST total. *)
Theorem zero_gain :
  SUM_GAIN == 0 -> 0 <= sum_amounts ANTE ->
  let rows :=
    rendered_rows MEMBERS
      (compute_reimbursements_and_render MEMBERS records SUM_GAIN gran
         selected weight_input) in
  covered_ante L == 0 /\
  remaining_gain L == 0 /\
  Forall
    (fun mr =>
       num_eq (part_after_ante_split (snd mr)) (Fin 0) /\
       num_eq (final_after_post (snd mr))
              (Fin (- sum_amounts (of_member (fst mr) POST))))
    rows.
Proof.
  intros G A. cbv zeta.
  assert (C : covered_ante L == 0).
  { rewrite covered_ante_eq. pose proof total_ante_spec as E.
    destruct (Q.min_spec SUM_GAIN (total_ante T)) as [[H1 E1]|[H1 E1]];
      rewrite E1; lra. }
  assert (R : remaining_gain L == 0).
  { rewrite remaining_gain_eq.
    destruct (Q.max_spec (SUM_GAIN - covered_ante L) 0) as [[H1 E1]|[H1 E1]];
      rewrite E1; lra. }
  split; [exact C|]. split; [exact R|].
  unfold compute_reimbursements_and_render. rewrite rendered_rows_eq.
  apply Forall_forall. intros [m r] H. apply in_map_iff in H.
  destruct H as [m' [[= <- <-] H]]. simpl.
  unfold get0 at 1 2. rewrite part_after_ante_get by assumption.
  pose proof (or0_mul_zero _ (get0 (weights L) m') R) as Z.
  destruct (or0 (mul (Fin (remaining_gain L)) (get0 (weights L) m')));
    simpl in Z; try contradiction.
  split; [exact Z|]. simpl. rewrite Z, post_member_spec. ring.
Qed.

(** C9, as amended.  When the sum of the per-member ANTE contributions is
    positive, the allocated ANTE of a known member is the covered ANTE times
    the member's ANTE contribution divided by that sum; otherwise it is zero
    for every known member.  The quantity is computed, but nothing the
    function makes visible depends on it: the logged summary and the rows
    are the same whatever [allocated_ante] holds. *)
Theorem allocated_ante_proportional :
  total_ante_contrib T == sum_amounts ANTE /\
  (0 < sum_amounts ANTE ->
   Forall
     (fun m =>
        exists q, get (allocated_ante L) m = Some (Fin q) /\
                  q == covered_ante L * sum_amounts (of_member m ANTE)
                       / sum_amounts ANTE)
     MEMBERS) /\
  (sum_amounts ANTE <= 0 ->
   Forall (fun m => get (allocated_ante L) m = Some (Fin 0)) MEMBERS) /\
  (forall (Lc : Locals) (a : obj num),
     summary_of MEMBERS SUM_GAIN (with_allocated_ante a Lc) =
     summary_of MEMBERS SUM_GAIN Lc).
Proof.
  pose proof total_ante_contrib_spec as C.
  split; [exact C|]. split; [|split].
  - intros P. apply Forall_forall. intros m H.
    rewrite allocated_ante_get by assumption.
    destruct (Qltb 0 (total_ante_contrib T)) eqn:E.
    + eexists. split; [reflexivity|].
      rewrite C, ante_member_spec. field. lra.
    + apply Qltb_ge in E. lra.
  - intros P. apply Forall_forall. intros m H.
    rewrite allocated_ante_get by assumption.
    destruct (Qltb 0 (total_ante_contrib T)) eqn:E; [|reflexivity].
    apply Qltb_lt in E. lra.
  - intros Lc a. reflexivity.
Qed.

Lemma num_sum_Fin (F : string -> num) (h : string -> Q) (M : list string) :
  (forall m, In m M -> F m = Fin (h m)) ->
  num_sum (map F M) = Fin (Qsum (map h M)).
Proof.
  unfold num_sum, Qsum. generalize 0 as a.
  induction M as [|m M IH]; intros a H; simpl; [reflexivity|].
  rewrite (H m) by now left. simpl. apply IH.
  intros x Hx. apply H. now right.
Qed.

Lemma Qsum_map_ext (h h' : string -> Q) (M : list string) :
  (forall m, In m M -> h m == h' m) ->
  Qsum (map h M) == Qsum (map h' M).
Proof.
  induction M as [|m M IH]; intros H; simpl; [reflexivity|].
  rewrite !Qsum_cons, (H m) by now left.
  rewrite IH; [reflexivity|]. intros x Hx. apply H. now right.
Qed.

Lemma Qsum_map_scale (c : Q) (h : string -> Q) (M : list string) :
  Qsum (map (fun m => c * h m) M) == c * Qsum (map h M).
Proof.
  induction M as [|m M IH]; simpl.
  - unfold Qsum. simpl. ring.
  - rewrite !Qsum_cons, IH. ring.
Qed.

Lemma Qsum_map_const (c : Q) (M : list string) :
  Qsum (map (fun _ => c) M) == inject_Z (Z.of_nat (List.length M)) * c.
Proof.
  induction M as [|m M IH].
  - simpl. unfold Qsum. simpl. ring.
  - cbn [map List.length]. rewrite Qsum_cons, IH, Nat2Z.inj_succ.
    unfold Z.succ. rewrite inject_Z_plus. ring.
Qed.

#[local] Abbreviation weight_of := (normalized_weight MEMBERS weight_input).

Lemma weights_get0 (m : string) :
  In m MEMBERS -> get0 (weights L) m = Fin (Qor0 (weight_of m)).
Proof.
  intros H. unfold get0, normalized_weight. cbv zeta.
  rewrite <- wsum_spec. fold (MEMBERS_length MEMBERS).
  destruct (Qle_bool (wsum MEMBERS weight_input) 0) eqn:E.
  - rewrite weights_uniform; [reflexivity| |assumption].
    now apply Qle_bool_iff.
  - rewrite weights_normalized; [reflexivity| |assumption].
    rewrite <- not_true_iff_false, Qle_bool_iff in E. lra.
Qed.

Lemma weight_of_sum : MEMBERS <> [] -> Qsum (map weight_of MEMBERS) == 1.
Proof.
  intros N. unfold normalized_weight. cbv zeta.
  rewrite <- wsum_spec. fold (MEMBERS_length MEMBERS).
  destruct (Qle_bool (wsum MEMBERS weight_input) 0) eqn:E.
  - rewrite Qsum_map_const. fold (MEMBERS_length MEMBERS).
    pose proof (MEMBERS_length_pos N). field. lra.
  - rewrite <- not_true_iff_false, Qle_bool_iff in E.
    rewrite (Qsum_map_ext _
      (fun m => / wsum MEMBERS weight_input * weight_input m)).
    + rewrite Qsum_map_scale, <- wsum_spec. field. lra.
    + intros m _. field. lra.
Qed.

(** C10, as amended.  When at least one member is known, the weights the
    split uses add up to one, and the parts after the ANTE split of the rows
    add up to the remaining gain. *)
Theorem weights_sum_to_one :
  MEMBERS <> [] ->
  let rows :=
    rendered_rows MEMBERS
      (compute_reimbursements_and_render MEMBERS records SUM_GAIN gran
         selected weight_input) in
  num_eq (num_sum (map (get0 (weights L)) MEMBERS)) (Fin 1) /\
  num_eq (num_sum (map (fun mr => part_after_ante_split (snd mr)) rows))
         (Fin (remaining_gain L)).
Proof.
  intros N. cbv zeta. split.
  - rewrite (num_sum_Fin _ (fun m => Qor0 (weight_of m))).
    + cbn [num_eq]. rewrite (Qsum_map_ext _ weight_of).
      * now apply weight_of_sum.
      * intros m _. apply Qor0_eq.
    + intros m H. now apply weights_get0.
  - unfold compute_reimbursements_and_render. rewrite rendered_rows_eq.
    rewrite map_map. cbn [snd part_after_ante_split result_of].
    rewrite (num_sum_Fin _
      (fun m => Qor0 (remaining_gain L * Qor0 (weight_of m)))).
    + cbn [num_eq]. rewrite (Qsum_map_ext _
        (fun m => remaining_gain L * weight_of m)).
      * rewrite Qsum_map_scale, (weight_of_sum N). ring.
      * intros m _. now rewrite !Qor0_eq.
    + intros m H. unfold get0 at 1.
      rewrite part_after_ante_get, weights_get0 by assumption.
      reflexivity.
Qed.

End AllocatorFacts.

(** *** The Allocator on the sample ledgers *)

(** The specification's concrete scenario. *)
Example concrete_scenario :
  let S := compute_reimbursements_and_render Sample.members Sample.ledger 40
             GType ["asso"] Sample.halves in
  log_total_ante S == 50 /\ log_covered_ante S == 40 /\
  log_remaining_gain S == 0 /\
  exists a b,
    rendered_rows Sample.members S = [("A", a); ("B", b)] /\
    num_eq (part_after_ante_split a) (Fin 0) /\
    num_eq (part_after_ante_split b) (Fin 0) /\
    num_eq (final_after_post a) (Fin (-100)) /\
    num_eq (final_after_post b) (Fin 0).
Proof.
  cbv zeta. repeat split; try reflexivity.
  do 2 eexists. split; [vm_compute; reflexivity|].
  repeat split; reflexivity.
Qed.

(** An unattributed line is in no row of the table, but it is in the
    by-member maps, under the empty key, and so in the partition identity. *)
Example unattributed_line_counted :
  let T := sum_totals [] Sample.unattributed GType ["perso"] in
  rendered_rows []
    (compute_reimbursements_and_render [] Sample.unattributed 100 GType
       ["perso"] (fun _ => 1)) = [] /\
  ante_totals_by_member T = [("", 5)] /\
  Qsum (values (ante_totals_by_member T)) +
  Qsum (values (post_totals_by_member T)) == sum_amounts Sample.unattributed.
Proof. cbv zeta. repeat split. Qed.

(** With all the typed weights at zero, the two members of the scenario get
    one half each. *)
Example uniform_fallback_scenario :
  exists a b,
    weights (locals Sample.members Sample.ledger 40 GType ["asso"]
               (fun _ => 0))
    = [("A", Fin a); ("B", Fin b)] /\ a == 1 # 2 /\ b == 1 # 2.
Proof.
  do 2 eexists. split; [vm_compute; reflexivity|]. split; reflexivity.
Qed.

(** C1, counterexample.  With the refund selected as ANTE and a gain of
    100, the ANTE total is -49, at most zero, and the covered ANTE is -49,
    not zero. *)
Lemma covered_ante_not_clamped :
  let L := locals ["Lucie"] Sample.refund 100 GName ["robes"] (fun _ => 1) in
  total_ante (totals L) <= 0 /\
  covered_ante L == -49 /\
  ~ covered_ante L == 0.
Proof.
  cbv zeta. split; [|split]; vm_compute; congruence.
Qed.

(** The rule on the specification's scenario, whose gain of 40 is not
    negative. *)
Lemma covered_ante_is_min_witness :
  0 <= 40 /\
  covered_ante (locals Sample.members Sample.ledger 40 GType ["asso"]
                  Sample.halves)
  == Qmin 40 (sum_amounts (ANTE Sample.ledger GType ["asso"])).
Proof.
  assert (G : 0 <= 40) by (vm_compute; discriminate).
  split; [exact G|].
  apply (covered_ante_is_min Sample.members Sample.ledger 40 GType ["asso"]
           Sample.halves G).
Defined.

(** C3, counterexample.  With a gain of zero and the refund selected as
    ANTE, the covered ANTE is -49 and the remaining gain 49, and the only
    row has a part of 49 and a final amount of 49, while the member's POST
    total is zero. *)
Lemma zero_gain_negative_ante :
  let S := compute_reimbursements_and_render ["Lucie"] Sample.refund 0 GType
             ["perso"] (fun _ => 1) in
  Sample.refund <> [] /\
  ~ log_covered_ante S == 0 /\
  ~ log_remaining_gain S == 0 /\
  exists r,
    rendered_rows ["Lucie"] S = [("Lucie", r)] /\
    res_total_post r == 0 /\
    ~ num_eq (part_after_ante_split r) (Fin 0) /\
    ~ num_eq (final_after_post r) (Fin (- res_total_post r)).
Proof.
  cbv zeta. split; [discriminate|].
  split; [vm_compute; congruence|]. split; [vm_compute; congruence|].
  eexists. split; [vm_compute; reflexivity|].
  split; [reflexivity|]. split; vm_compute; congruence.
Qed.

(** The specification's scenario with a gain of zero: the ANTE total is 50. *)
Lemma zero_gain_witness :
  0 == 0 /\
  0 <= sum_amounts (ANTE Sample.ledger GType ["asso"]) /\
  covered_ante (locals Sample.members Sample.ledger 0 GType ["asso"]
                  Sample.halves) == 0.
Proof.
  assert (G : 0 == 0) by reflexivity.
  assert (A : 0 <= sum_amounts (ANTE Sample.ledger GType ["asso"]))
    by (vm_compute; discriminate).
  split; [exact G|]. split; [exact A|].
  apply (zero_gain Sample.members Sample.ledger 0 GType ["asso"]
           Sample.halves G A).
Defined.

(** C9, counterexample.  On the shared ledger with a gain of 20, the
    allocated ANTE of member A is 15, and 15 is none of the numbers the
    function logs or renders. *)
Lemma allocated_ante_not_exposed :
  let L := locals Sample.members Sample.shared 20 GType ["asso"]
             Sample.halves in
  let S := summary_of Sample.members 20 L in
  S = compute_reimbursements_and_render Sample.members Sample.shared 20
        GType ["asso"] Sample.halves /\
  exists v,
    get (allocated_ante L) "A" = Some v /\
    num_eq v (Fin 15) /\
    forall x, In x (exposed_numbers S) -> ~ num_eq x v.
Proof.
  cbv zeta. split; [reflexivity|].
  eexists. split; [vm_compute; reflexivity|].
  split; [vm_compute; reflexivity|].
  intros x H. vm_compute in H.
  repeat (destruct H as [<-|H]; [vm_compute; congruence|]).
  destruct H.
Qed.

(** On the same ledger the allocated shares are 15 and 5. *)
Example allocated_ante_shared :
  let L := locals Sample.members Sample.shared 20 GType ["asso"]
             Sample.halves in
  exists a b,
    allocated_ante L = [("A", Fin a); ("B", Fin b)] /\ a == 15 /\ b == 5.
Proof.
  cbv zeta. do 2 eexists. split; [vm_compute; reflexivity|].
  split; reflexivity.
Qed.

(** C10, counterexample.  With no known member and a gain of 100, there is
    no weight, so the weights add up to zero, and there is no row, so the
    parts add up to zero while the remaining gain is 100. *)
Lemma no_member_weights_sum :
  let L := locals [] Sample.unattributed 100 GType ["asso"] (fun _ => 1) in
  let rows :=
    rendered_rows []
      (compute_reimbursements_and_render [] Sample.unattributed 100 GType
         ["asso"] (fun _ => 1)) in
  ~ num_eq (num_sum (map (get0 (weights L)) [])) (Fin 1) /\
  remaining_gain L == 100 /\
  ~ num_eq (num_sum (map (fun mr => part_after_ante_split (snd mr)) rows))
           (Fin (remaining_gain L)).
Proof.
  cbv zeta. split; [|split]; vm_compute; congruence.
Qed.

(** The specification's scenario has two known members. *)
Lemma weights_sum_to_one_witness :
  Sample.members <> [] /\
  num_eq
    (num_sum
       (map (get0 (weights (locals Sample.members Sample.ledger 40 GType
                              ["asso"] Sample.halves)))
            Sample.members))
    (Fin 1).
Proof.
  assert (N : Sample.members <> []) by discriminate.
  split; [exact N|].
  apply (weights_sum_to_one Sample.members Sample.ledger 40 GType ["asso"]
           Sample.halves N).
Defined.

(** *** The exactness claims over binary64 *)

Module Binary64Facts.

Import PrimFloat SpecFloat FloatOps FloatAxioms Binary64.
Local Open Scope bool_scope.

Lemma Prim2SF_zero : Prim2SF 0%float = S754_zero false.
Proof. reflexivity. Qed.

Lemma Prim2SF_nan : Prim2SF nan = S754_nan.
Proof. reflexivity. Qed.

Lemma Prim2SF_infinity : Prim2SF infinity = S754_infinity false.
Proof. reflexivity. Qed.

Lemma SFcompare_refl (X : spec_float) :
  X <> S754_nan -> SFcompare X X = Some Eq.
Proof.
  destruct X as [s|s| |s m e]; simpl; intros H; try congruence.
  - now destruct s.
  - destruct s; rewrite Z.compare_refl;
      change (Pos.compare_cont Eq m m) with (Pos.compare m m);
      now rewrite Pos.compare_refl.
Qed.

Lemma is_nan_spec (x : float) : is_nan x = SF_is_nan (Prim2SF x).
Proof.
  unfold is_nan. rewrite eqb_spec. unfold SFeqb.
  destruct (Prim2SF x) eqn:E; try reflexivity;
    rewrite SFcompare_refl by discriminate; reflexivity.
Qed.

Lemma is_zero_spec (x : float) : is_zero x = SF_is_zero (Prim2SF x).
Proof.
  unfold is_zero, zero. rewrite eqb_spec, Prim2SF_zero. unfold SFeqb.
  destruct (Prim2SF x) as [s|s| |s m e]; simpl; try reflexivity;
    now destruct s.
Qed.

Lemma get_sign_spec (x : float) : get_sign x = SF_sign (Prim2SF x).
Proof.
  unfold get_sign, zero. rewrite is_zero_spec.
  destruct (Prim2SF x) as [s|s| |s m e] eqn:E; simpl;
    rewrite ltb_spec, Prim2SF_zero, ?div_spec, ?E; unfold SFltb.
  - now destruct s.
  - simpl. now destruct s.
  - reflexivity.
  - simpl. now destruct s.
Qed.

Lemma Math_min_spec (a b : float) :
  Prim2SF (Binary64.Math_min a b) = SFmin (Prim2SF a) (Prim2SF b).
Proof.
  unfold Binary64.Math_min, SFmin.
  rewrite !is_nan_spec, !ltb_spec, get_sign_spec.
  destruct (SF_is_nan (Prim2SF a) || SF_is_nan (Prim2SF b)); [reflexivity|].
  destruct (SFltb (Prim2SF a) (Prim2SF b)); [reflexivity|].
  destruct (SFltb (Prim2SF b) (Prim2SF a)); [reflexivity|].
  now destruct (SF_sign (Prim2SF a)).
Qed.

Lemma Math_max_spec (a b : float) :
  Prim2SF (Binary64.Math_max a b) = SFmax (Prim2SF a) (Prim2SF b).
Proof.
  unfold Binary64.Math_max, SFmax.
  rewrite !is_nan_spec, !ltb_spec, get_sign_spec.
  destruct (SF_is_nan (Prim2SF a) || SF_is_nan (Prim2SF b)); [reflexivity|].
  destruct (SFltb (Prim2SF b) (Prim2SF a)); [reflexivity|].
  destruct (SFltb (Prim2SF a) (Prim2SF b)); [reflexivity|].
  now destruct (SF_sign (Prim2SF a)).
Qed.

(** A finite number minus itself is the positive zero. *)
Lemma SF64sub_diag (s : bool) (m : positive) (e : Z) :
  SF64sub (S754_finite s m e) (S754_finite s m e) = S754_zero false.
Proof.
  unfold SF64sub, SFsub. cbv zeta. rewrite Z.min_id. unfold shl_align.
  rewrite !Z.sub_diag. reflexivity.
Qed.

(** The two statements on the specification's floats, when the gain is
    finite, not negative, and at most the ANTE total. *)
Lemma SF_gain_used_up (G T : spec_float) :
  SFleb (S754_zero false) G = true ->
  SFltb G (S754_infinity false) = true ->
  SFleb G T = true ->
  SFeqb (SF64add (SFmin G T)
           (SFmax (SF64sub G (SFmin G T)) (S754_zero false))) G = true.
Proof.
  intros H0 Hf Hle.
  assert (Hc : (exists s, G = S754_zero s /\ exists s', SFmin G T = S754_zero s')
               \/ (exists m e, G = S754_finite false m e /\ SFmin G T = G)).
  { destruct G as [s|[|]| |s m e]; try discriminate.
    - left. exists s. split; [reflexivity|].
      destruct T as [s'|s'| |s' m' e']; try discriminate.
      + destruct s; [exists true|exists s']; reflexivity.
      + destruct s'; [discriminate|]. exists s. reflexivity.
      + destruct s'; [discriminate|]. exists s. reflexivity.
    - destruct s; [discriminate|]. right. exists m, e. split; [reflexivity|].
      destruct T as [s'|s'| |s' m' e']; try discriminate.
      + destruct s'; [discriminate|]. reflexivity.
      + destruct s'; [discriminate|].
        unfold SFmin, SFltb, SFleb in *. simpl in *.
        destruct (Z.compare e e') eqn:Ez; try discriminate; [|reflexivity].
        destruct (Pos.compare_cont Eq m m') eqn:Em; try discriminate;
          [|reflexivity].
        apply Z.compare_eq in Ez. apply Pos.compare_eq in Em. subst.
        rewrite Z.compare_refl.
        change (Pos.compare_cont Eq m' m') with (Pos.compare m' m').
        now rewrite Pos.compare_refl. }
  destruct Hc as [[s [-> [s' ->]]]|[m [e [-> ->]]]].
  - destruct s, s'; reflexivity.
  - rewrite SF64sub_diag.
    change (SFmax (S754_zero false) (S754_zero false)) with (S754_zero false).
    change (SF64add (S754_finite false m e) (S754_zero false))
      with (S754_finite false m e).
    unfold SFeqb. rewrite SFcompare_refl by discriminate. reflexivity.
Qed.

(** When the gain is finite, not negative, and at most the ANTE total, the
    covered ANTE and the remaining gain add up to the gain in binary64 too:
    the gain is covered whole and nothing remains. *)
Lemma gain_conserved_when_used_up (SUM_GAIN total_ante : float) :
  (0 <=? SUM_GAIN)%float = true ->
  (SUM_GAIN <? infinity)%float = true ->
  (SUM_GAIN <=? total_ante)%float = true ->
  let covered_ante := Binary64.covered_ante SUM_GAIN total_ante in
  let remaining_gain := Binary64.remaining_gain SUM_GAIN covered_ante in
  (covered_ante + remaining_gain =? SUM_GAIN)%float = true.
Proof.
  intros H0 Hf Hle. cbv zeta.
  unfold Binary64.covered_ante, Binary64.remaining_gain.
  rewrite eqb_spec, add_spec, Math_max_spec, sub_spec, Math_min_spec,
    Prim2SF_zero.
  rewrite leb_spec, Prim2SF_zero in H0.
  rewrite ltb_spec, Prim2SF_infinity in Hf.
  rewrite leb_spec in Hle.
  now apply SF_gain_used_up.
Qed.

(** C4, as amended.  In exact arithmetic the covered ANTE and the remaining
    gain add up to the gain, for every ledger, selection, weights and gain.
    In binary64, as the page computes them, they add up to the gain exactly
    whenever the gain is finite, not negative, and at most the ANTE total. *)
Theorem gain_conservation_exact_and_binary64 :
  (forall MEMBERS records SUM_GAIN gran selected weight_input,
     let L :=
       Allocator.locals MEMBERS records SUM_GAIN gran selected weight_input in
     (Allocator.covered_ante L + Allocator.remaining_gain L == SUM_GAIN)%Q) /\
  (forall SUM_GAIN total_ante : float,
     (0 <=? SUM_GAIN)%float = true ->
     (SUM_GAIN <? infinity)%float = true ->
     (SUM_GAIN <=? total_ante)%float = true ->
     let covered_ante := Binary64.covered_ante SUM_GAIN total_ante in
     let remaining_gain := Binary64.remaining_gain SUM_GAIN covered_ante in
     (covered_ante + remaining_gain =? SUM_GAIN)%float = true).
Proof.
  split.
  - exact gain_conservation.
  - exact gain_conserved_when_used_up.
Qed.

Local Open Scope float_scope.

(** A gain of 40 against one ANTE record of 50, as in the specification's
    concrete scenario: the gain is used up and the sum is the gain. *)
Example gain_conserved_scenario :
  let covered_ante := Binary64.covered_ante 40 (Binary64.total_ante [50]) in
  (covered_ante + Binary64.remaining_gain 40 covered_ante =? 40) = true.
Proof.
  apply gain_conserved_when_used_up; vm_compute; reflexivity.
Qed.

(** C4, counterexample.  With the page's Numbers, a gain of 959.57 and one
    ANTE record of 336.79 give a covered ANTE of 336.79 and a remaining gain
    of 622.78, whose sum is 959.5699999999999, below the gain. *)
Lemma gain_not_conserved_in_binary64 :
  let SUM_GAIN := 95957 / 100 in
  let total_ante := Binary64.total_ante [33679 / 100] in
  let covered_ante := Binary64.covered_ante SUM_GAIN total_ante in
  let remaining_gain := Binary64.remaining_gain SUM_GAIN covered_ante in
  (0 <=? SUM_GAIN) = true /\
  (covered_ante + remaining_gain =? SUM_GAIN) = false /\
  (covered_ante + remaining_gain <? SUM_GAIN) = true.
Proof. cbv zeta. repeat split; vm_compute; reflexivity. Qed.

(** With the page's Numbers the normalized weights need not add up to one,
    neither after the uniform fallback (six members) nor after the division
    by the sum (weights 0.74, 0.67 and 0.31), and the parts then need not
    add up to the remaining gain. *)
Example weights_sum_in_binary64 :
  (Binary64.sum (Binary64.normalized_weights [0; 0; 0; 0; 0; 0]) <? 1) = true /\
  (Binary64.sum
     (Binary64.normalized_weights [74 / 100; 67 / 100; 31 / 100]) <? 1) = true /\
  (Binary64.sum
     (Binary64.split 1000
        (Binary64.normalized_weights [74 / 100; 67 / 100; 31 / 100]))
   =? 1000) = false.
Proof. repeat split; vm_compute; reflexivity. Qed.

End Binary64Facts.

(** ** Sorting *)

Section SortFacts.

Context {A : Type}.
Variable cmp : A -> A -> Q.
Variable le : A -> A -> Prop.

Hypothesis cmp_lt_le : forall x y, cmp x y < 0 -> le x y.
Hypothesis cmp_ge_le : forall x y, 0 <= cmp x y -> le y x.
Hypothesis le_trans : forall x y z, le x y -> le y z -> le x z.

Lemma insert_perm (x : A) (l : list A) : Permutation (insert cmp x l) (x :: l).
Proof.
  induction l as [|y l IH]; simpl.
  - reflexivity.
  - destruct (Qltb (cmp x y) 0); [reflexivity|].
    rewrite IH. apply perm_swap.
Qed.

Lemma sort_perm (l : list A) : Permutation (sort cmp l) l.
Proof.
  unfold sort.
  assert (G : forall acc, Permutation
                (fold_left (fun acc x => insert cmp x acc) l acc) (acc ++ l)).
  { induction l as [|x l IH]; intros acc; simpl.
    - now rewrite app_nil_r.
    - rewrite IH, insert_perm. apply Permutation_middle. }
  apply (G []).
Qed.

Lemma insert_sorted (x : A) (l : list A) :
  StronglySorted le l -> StronglySorted le (insert cmp x l).
Proof.
  induction 1 as [|y l S IH F]; simpl.
  - repeat constructor.
  - destruct (Qltb (cmp x y) 0) eqn:E.
    + apply Qltb_lt in E. apply cmp_lt_le in E.
      constructor; [now constructor|].
      constructor; [assumption|].
      eapply Forall_impl; [|exact F]. intros z Hz. now apply le_trans with y.
    + apply Qltb_ge in E. apply cmp_ge_le in E.
      constructor; [assumption|].
      apply Permutation_Forall with (x :: l).
      * symmetry. apply insert_perm.
      * now constructor.
Qed.

Lemma sort_sorted (l : list A) : StronglySorted le (sort cmp l).
Proof.
  unfold sort.
  assert (G : forall acc, StronglySorted le acc ->
                StronglySorted le
                  (fold_left (fun acc x => insert cmp x acc) l acc)).
  { induction l as [|x l IH]; intros acc S; simpl; [assumption|].
    apply IH. now apply insert_sorted. }
  apply G. constructor.
Qed.

End SortFacts.

(** ** The main table *)

Import MainTable.

(** The keys of an object. *)

Lemma keys_put_In {V : Type} (o : obj V) (k k' : string) (v : V) :
  In k' (keys (put o k v)) <-> k' = k \/ In k' (keys o).
Proof.
  induction o as [|[k0 v0] o IH]; simpl.
  - intuition.
  - destruct (String.eqb k0 k) eqn:E; simpl.
    + apply String.eqb_eq in E. subst. intuition.
    + rewrite IH. intuition.
Qed.

Lemma keys_put_NoDup {V : Type} (o : obj V) (k : string) (v : V) :
  NoDup (keys o) -> NoDup (keys (put o k v)).
Proof.
  induction o as [|[k0 v0] o IH]; simpl; intros N.
  - repeat constructor. intros [].
  - inversion N as [|? ? Hn N']; subst.
    destruct (String.eqb k0 k) eqn:E; simpl.
    + now constructor.
    + apply String.eqb_neq in E. constructor; [|now apply IH].
      rewrite keys_put_In. intros [->|H]; [congruence|contradiction].
Qed.

Lemma In_get {V : Type} (o : obj V) (k : string) (v : V) :
  NoDup (keys o) -> In (k, v) o -> get o k = Some v.
Proof.
  induction o as [|[k0 v0] o IH]; simpl; intros N H; [destruct H|].
  inversion N as [|? ? Hn N']; subst.
  destruct H as [[= -> ->]|H].
  - now rewrite String.eqb_refl.
  - destruct (String.eqb k0 k) eqn:E; [|now apply IH].
    apply String.eqb_eq in E. subst. elim Hn.
    apply in_map_iff. now exists (k, v).
Qed.

(** The first loop of [build_main_table]. *)

Lemma byType_step_get (bt : obj (obj Row)) (r : ExpenseRecord) (t : string) :
  get (byType_step bt r) t =
  if String.eqb (type_key r) t
  then Some (put (match get bt t with Some g => g | None => [] end)
               (sub_key r)
               (add_record
                  (match row_lookup bt t (sub_key r) with
                   | Some c => c
                   | None => mkRow [] 0 (sub_key r) t
                   end) r))
  else get bt t.
Proof.
  unfold byType_step, row_lookup.
  destruct (String.eqb (type_key r) t) eqn:E.
  - apply String.eqb_eq in E. subst t. rewrite get_put_same.
    destruct (get bt (type_key r)); reflexivity.
  - apply String.eqb_neq in E. now rewrite get_put_other.
Qed.

Lemma row_lookup_step (bt : obj (obj Row)) (r : ExpenseRecord)
  (t k : string) :
  row_lookup (byType_step bt r) t k =
  if String.eqb (type_key r) t && String.eqb (sub_key r) k
  then Some (add_record
               (match row_lookup bt t k with
                | Some c => c
                | None => mkRow [] 0 k t
                end) r)
  else row_lookup bt t k.
Proof.
  unfold row_lookup at 1. rewrite byType_step_get.
  destruct (String.eqb (type_key r) t) eqn:E; simpl; [|reflexivity].
  destruct (String.eqb (sub_key r) k) eqn:F.
  - apply String.eqb_eq in F. subst k. now rewrite get_put_same.
  - apply String.eqb_neq in F. rewrite get_put_other by assumption.
    unfold row_lookup. destruct (get bt t); reflexivity.
Qed.

Lemma byType_step_keys (bt : obj (obj Row)) (r : ExpenseRecord) (t : string) :
  In t (keys (byType_step bt r)) <-> t = type_key r \/ In t (keys bt).
Proof. unfold byType_step. apply keys_put_In. Qed.

Lemma byType_fold_keys (l : list ExpenseRecord) (bt : obj (obj Row))
  (t : string) :
  In t (keys (fold_left byType_step l bt)) <->
  In t (keys bt) \/ exists r, In r l /\ type_key r = t.
Proof.
  revert bt. induction l as [|r l IH]; intros bt; simpl.
  - split; [auto|]. intros [H|[r [[] _]]]. exact H.
  - rewrite IH, byType_step_keys. split.
    + intros [[->|H]|[r' [H E]]]; eauto.
    + intros [H|[r' [[->|H] E]]]; eauto.
Qed.

Lemma byType_fold_NoDup (l : list ExpenseRecord) (bt : obj (obj Row)) :
  NoDup (keys bt) -> NoDup (keys (fold_left byType_step l bt)).
Proof.
  revert bt. induction l as [|r l IH]; intros bt N; simpl; [assumption|].
  apply IH. unfold byType_step. now apply keys_put_NoDup.
Qed.

(** Every row object has distinct keys. *)
Lemma byType_fold_rows_NoDup (l : list ExpenseRecord) (bt : obj (obj Row)) :
  (forall t g, get bt t = Some g -> NoDup (keys g)) ->
  forall t g, get (fold_left byType_step l bt) t = Some g -> NoDup (keys g).
Proof.
  revert bt. induction l as [|r l IH]; intros bt N; simpl; [assumption|].
  apply IH. intros t g. rewrite byType_step_get.
  destruct (String.eqb (type_key r) t); [|apply N].
  intros [= <-]. apply keys_put_NoDup.
  destruct (get bt t) eqn:G; [now apply (N t)|constructor].
Qed.

(** Every row carries its two keys. *)
Lemma byType_fold_labels (l : list ExpenseRecord) (bt : obj (obj Row)) :
  (forall t k row, row_lookup bt t k = Some row ->
                   rowKey row = k /\ row_spent_type row = t) ->
  forall t k row, row_lookup (fold_left byType_step l bt) t k = Some row ->
                  rowKey row = k /\ row_spent_type row = t.
Proof.
  revert bt. induction l as [|r l IH]; intros bt N; simpl; [assumption|].
  apply IH. intros t k row. rewrite row_lookup_step.
  destruct (String.eqb (type_key r) t && String.eqb (sub_key r) k);
    [|apply N].
  intros [= <-]. simpl.
  destruct (row_lookup bt t k) eqn:G; [now apply N|auto].
Qed.

Lemma byType_fold_total (l : list ExpenseRecord) (bt : obj (obj Row))
  (t k : string) :
  row_total (fold_left byType_step l bt) t k ==
  row_total bt t k + sum_amounts (of_group t k l).
Proof.
  revert bt. induction l as [|r l IH]; intros bt; simpl.
  - rewrite sum_amounts_nil. ring.
  - rewrite IH. unfold row_total at 1. rewrite row_lookup_step.
    destruct (String.eqb (type_key r) t && String.eqb (sub_key r) k);
      simpl; rewrite ?sum_amounts_cons.
    + unfold row_total. destruct (row_lookup bt t k); simpl;
        rewrite ?Qor0_eq, amt_eq; ring.
    + fold (row_total bt t k). ring.
Qed.

(** The order of the categories. *)


Section CollationFacts.

Variable localeCompare : string -> string -> Z.

(** The collation is a total preorder. *)
Hypothesis localeCompare_antisym :
  forall a b, (0 <= localeCompare a b)%Z -> (localeCompare b a <= 0)%Z.
Hypothesis localeCompare_trans :
  forall a b c, (localeCompare a b <= 0)%Z -> (localeCompare b c <= 0)%Z ->
                (localeCompare a c <= 0)%Z.














End CollationFacts.

(** *** The main table on a sample ledger *)


Lemma string_lt_trans (a b c : string) :
  String_as_OT.lt a b -> String_as_OT.lt b c -> String_as_OT.lt a c.
Proof. apply (StrictOrder_Transitive a b c). Qed.




(** The categories of the mixed ledger, in display order. *)
Example main_table_mixed :
  map header (groups (build_main_table Sample.code_unit_compare Sample.mixed))
  = ["asso"; "perso"; "don"].
Proof. vm_compute. reflexivity. Qed.


(** ** The detail table *)





(** A quantity of a row that each record of the row adds to. *)
Section RowMeasure.

Variable measure : Detail.Row -> Q.
Variable share : ExpenseRecord -> Q.

Hypothesis measure_add :
  forall cur r, measure (Detail.add_record cur r) == measure cur + share r.
Hypothesis measure_new :
  forall k, measure (Detail.mkRow k [] 0 (Detail.mkParts 0 0)) == 0.


End RowMeasure.

Lemma Qsum_share_filter (f : ExpenseRecord -> bool) (l : list ExpenseRecord) :
  Qsum (map (fun r => if f r then amt r else 0) l) == sum_amounts (filter f l).
Proof.
  induction l as [|r l IH]; simpl.
  - reflexivity.
  - rewrite Qsum_cons, IH. destruct (f r).
    + rewrite sum_amounts_cons, amt_eq. ring.
    + ring.
Qed.

Lemma Qsum_share_all (l : list ExpenseRecord) :
  Qsum (map amt l) == sum_amounts l.
Proof.
  induction l as [|r l IH]; simpl.
  - reflexivity.
  - rewrite Qsum_cons, sum_amounts_cons, IH, amt_eq. ring.
Qed.



(** ** The member columns of the main table and the legend *)

Lemma Qsum_perm (l l' : list Q) : Permutation l l' -> Qsum l == Qsum l'.
Proof.
  induction 1 as [|x l l' P IH|x y l|l l' l'' P1 IH1 P2 IH2].
  - reflexivity.
  - rewrite !Qsum_cons, IH. reflexivity.
  - rewrite !Qsum_cons. ring.
  - now rewrite IH1.
Qed.

Lemma fold_left_plus_map {A : Type} (f : A -> Q) (l : list A) (a : Q) :
  fold_left (fun s x => s + f x) l a == a + Qsum (map f l).
Proof.
  revert a. induction l as [|x l IH]; intros a; simpl.
  - unfold Qsum. simpl. ring.
  - rewrite IH, Qsum_cons. ring.
Qed.

Lemma Qsum_map_plus {A : Type} (f g : A -> Q) (l : list A) :
  Qsum (map (fun x => f x + g x) l) == Qsum (map f l) + Qsum (map g l).
Proof.
  induction l as [|x l IH]; simpl.
  - reflexivity.
  - rewrite !Qsum_cons, IH. ring.
Qed.

Lemma Qsum_map_eq {A : Type} (f g : A -> Q) (l : list A) :
  (forall x, In x l -> f x == g x) -> Qsum (map f l) == Qsum (map g l).
Proof.
  induction l as [|x l IH]; intros H; simpl; [reflexivity|].
  rewrite !Qsum_cons, (H x) by now left.
  rewrite IH; [reflexivity|]. intros y Hy. apply H. now right.
Qed.

(** One key among distinct keys. *)
Lemma Qsum_indicator_out (k : string) (c : Q) (ks : list string) :
  ~ In k ks ->
  Qsum (map (fun t => if String.eqb k t then c else 0) ks) == 0.
Proof.
  induction ks as [|t ks IH]; simpl; intros H; [reflexivity|].
  rewrite Qsum_cons, IH by tauto.
  destruct (String.eqb k t) eqn:E; [|ring].
  apply String.eqb_eq in E. subst t. tauto.
Qed.

Lemma Qsum_indicator (k : string) (c : Q) (ks : list string) :
  NoDup ks -> In k ks ->
  Qsum (map (fun t => if String.eqb k t then c else 0) ks) == c.
Proof.
  induction 1 as [|t ks N _ IH]; simpl; intros H; [destruct H|].
  rewrite Qsum_cons. destruct (String.eqb k t) eqn:E.
  - apply String.eqb_eq in E. subst t.
    rewrite Qsum_indicator_out by assumption. ring.
  - apply String.eqb_neq in E. rewrite IH; [ring|].
    destruct H as [H|H]; [congruence|assumption].
Qed.

(** Summing group by group is summing everything, when every key has its
    group. *)
Lemma Qsum_by_key (key : ExpenseRecord -> string) (share : ExpenseRecord -> Q)
  (ks : list string) (l : list ExpenseRecord) :
  NoDup ks -> (forall r, In r l -> In (key r) ks) ->
  Qsum (map (fun t =>
               Qsum (map share (filter (fun r => String.eqb (key r) t) l)))
          ks)
  == Qsum (map share l).
Proof.
  intros N. induction l as [|r l IH]; intros H; simpl.
  - apply Qsum_zero, Forall_forall. intros x Hx. apply in_map_iff in Hx.
    destruct Hx as [t [<- _]]. reflexivity.
  - rewrite Qsum_cons, <- IH by (intros x Hx; apply H; now right).
    rewrite <- (Qsum_map_eq
      (fun t => (if String.eqb (key r) t then share r else 0) +
                Qsum (map share (filter (fun r => String.eqb (key r) t) l)))).
    + rewrite Qsum_map_plus, Qsum_indicator; [reflexivity|assumption|].
      apply H. now left.
    + intros t _. destruct (String.eqb (key r) t); simpl.
      * rewrite Qsum_cons. reflexivity.
      * ring.
Qed.

Lemma Qsum_map_put {V : Type} (f : V -> Q) (o : obj V) (k : string) (v : V) :
  Qsum (map f (values (put o k v))) +
  match get o k with Some v0 => f v0 | None => 0 end
  == Qsum (map f (values o)) + f v.
Proof.
  induction o as [|[k' v'] o IH]; simpl.
  - unfold Qsum. simpl. ring.
  - destruct (String.eqb k' k) eqn:E; simpl; rewrite !Qsum_cons.
    + ring.
    + lra.
Qed.

Lemma type_key_eq (r : ExpenseRecord) : type_key r = spent_type r.
Proof.
  unfold type_key, str_or. destruct (String.eqb (spent_type r) "") eqn:E.
  - apply String.eqb_eq in E. now rewrite E.
  - reflexivity.
Qed.

(** A quantity of a row of the main table that each record of the row adds
    to, summed over the rows of a category. *)
Section TableMeasure.

Variable measure : Row -> Q.
Variable share : ExpenseRecord -> Q.

Hypothesis measure_add :
  forall cur r, measure (add_record cur r) == measure cur + share r.
Hypothesis measure_new : forall k t, measure (mkRow [] 0 k t) == 0.

#[local] Abbreviation group_measure bt t :=
  (Qsum (map measure
           (values (match get bt t with Some g => g | None => [] end)))).

Lemma byType_step_measure (bt : obj (obj Row)) (r : ExpenseRecord)
  (t : string) :
  group_measure (byType_step bt r) t ==
  group_measure bt t + (if String.eqb (spent_type r) t then share r else 0).
Proof.
  rewrite byType_step_get, type_key_eq.
  destruct (String.eqb (spent_type r) t) eqn:E; [|ring].
  set (G := match get bt t with Some g => g | None => [] end).
  set (cur := match row_lookup bt t (sub_key r) with
              | Some c => c
              | None => mkRow [] 0 (sub_key r) t
              end).
  pose proof (Qsum_map_put measure G (sub_key r) (add_record cur r)) as P.
  rewrite measure_add in P.
  assert (C : match get G (sub_key r) with Some v0 => measure v0 | None => 0 end
              == measure cur).
  { unfold cur, row_lookup, G. destruct (get bt t) as [g|]; simpl.
    - destruct (get g (sub_key r)); [reflexivity|].
      now rewrite measure_new.
    - now rewrite measure_new. }
  rewrite C in P. lra.
Qed.

Lemma byType_fold_measure (l : list ExpenseRecord) (bt : obj (obj Row))
  (t : string) :
  group_measure (fold_left byType_step l bt) t ==
  group_measure bt t +
  Qsum (map share (filter (fun r => String.eqb (spent_type r) t) l)).
Proof.
  revert bt. induction l as [|r l IH]; intros bt; simpl.
  - change (Qsum []) with 0. ring.
  - rewrite IH, byType_step_measure.
    destruct (String.eqb (spent_type r) t); simpl.
    + rewrite Qsum_cons. ring.
    + ring.
Qed.

End TableMeasure.

Lemma subtotal_group_of (records : list ExpenseRecord) (t : string) :
  subtotal (group_of (byType records) t) ==
  sum_amounts (of_category t records).
Proof.
  cbn [subtotal group_of]. rewrite fold_left_plus_map, Qplus_0_l.
  unfold sorted_rows.
  rewrite (Qsum_perm _ _
             (Permutation_map (fun r => Qor0 (total r))
                (sort_perm row_cmp _))).
  unfold byType.
  rewrite (byType_fold_measure (fun row => Qor0 (total row)) amt).
  - simpl. unfold Qsum at 1. simpl. rewrite Qplus_0_l.
    unfold of_category. apply Qsum_share_all.
  - intros cur r. simpl. now rewrite !Qor0_eq.
  - intros. reflexivity.
Qed.

Lemma subtotal_cell_group_of (records : list ExpenseRecord) (t m : string) :
  Cells.subtotal_cell (rows (group_of (byType records) t)) m ==
  sum_amounts (of_member m (of_category t records)).
Proof.
  unfold Cells.subtotal_cell. rewrite fold_left_plus_map, Qplus_0_l.
  cbn [rows group_of]. unfold sorted_rows.
  rewrite (Qsum_perm _ _
             (Permutation_map (fun r => Qget0 (totals r) m)
                (sort_perm row_cmp _))).
  unfold byType.
  rewrite (byType_fold_measure (fun row => Qget0 (totals row) m)
             (fun r => if String.eqb (member r) m then amt r else 0)).
  - simpl. unfold Qsum at 1. simpl. rewrite Qplus_0_l.
    unfold of_category, of_member. apply Qsum_share_filter.
  - intros cur r. simpl. rewrite Qget0_accum.
    unfold str_or. destruct (String.eqb (member r) "") eqn:E.
    + apply String.eqb_eq in E. rewrite E. reflexivity.
    + reflexivity.
  - intros. reflexivity.
Qed.

Lemma total_cell_member (records : list ExpenseRecord) (m : string) :
  Cells.total_cell records m == sum_amounts (of_member m records).
Proof.
  unfold Cells.total_cell.
  rewrite (fold_left_plus_map
             (fun r => if String.eqb (member r) m then amt r else 0)).
  rewrite Qplus_0_l. apply Qsum_share_filter.
Qed.

Lemma byType_keys_types (records : list ExpenseRecord) (r : ExpenseRecord) :
  In r records -> In (spent_type r) (keys (byType records)).
Proof.
  intros H. apply byType_fold_keys. right. exists r.
  split; [assumption|apply type_key_eq].
Qed.

Lemma byType_keys_NoDup (records : list ExpenseRecord) :
  NoDup (keys (byType records)).
Proof. apply byType_fold_NoDup. constructor. Qed.

Lemma grandTotal_sum (localeCompare : string -> string -> Z)
  (records : list ExpenseRecord) :
  grandTotal (build_main_table localeCompare records) == sum_amounts records.
Proof.
  unfold build_main_table. cbn [grandTotal].
  set (bt := byType records).
  rewrite fold_left_plus_map, Qplus_0_l, map_map.
  rewrite (Qsum_perm _ _
             (Permutation_map (fun t => subtotal (group_of bt t))
                (sort_perm (type_cmp localeCompare) (keys bt)))).
  rewrite (Qsum_map_eq _
             (fun t => Qsum (map amt
                (filter (fun r => String.eqb (spent_type r) t) records)))).
  - rewrite (Qsum_by_key spent_type amt).
    + apply Qsum_share_all.
    + apply byType_keys_NoDup.
    + apply byType_keys_types.
  - intros t _. unfold bt. rewrite subtotal_group_of.
    unfold of_category. symmetry. apply Qsum_share_all.
Qed.

Section TableTotals.

Variable localeCompare : string -> string -> Z.
Variable records : list ExpenseRecord.



(** In the subtotal line of a block, the cell of a member is the sum of the
    amounts of the block's category that are attributed to the member. *)
Theorem subtotal_cell_is_member_category_sum (m : string) :
  Forall
    (fun g =>
       Cells.subtotal_cell (rows g) m ==
       sum_amounts (of_member m (of_category (header g) records)))
    (groups (build_main_table localeCompare records)).
Proof.
  unfold build_main_table. cbn [groups]. apply Forall_forall.
  intros g H. apply in_map_iff in H. destruct H as [t [<- _]].
  cbn [header group_of]. apply subtotal_cell_group_of.
Qed.

(** In the TOTAL line, the cell of a member is the sum of the amounts
    attributed to the member, and it is the sum of the member's cells in the
    subtotal lines of the blocks. *)
Theorem total_cell_adds_subtotal_cells (m : string) :
  let tbl := build_main_table localeCompare records in
  Cells.total_cell records m == sum_amounts (of_member m records) /\
  Cells.total_cell records m ==
  Qsum (map (fun g => Cells.subtotal_cell (rows g) m) (groups tbl)).
Proof.
  cbv zeta. split; [apply total_cell_member|].
  unfold build_main_table. cbn [groups]. set (bt := byType records).
  rewrite map_map.
  rewrite (Qsum_perm _ _
             (Permutation_map
                (fun t => Cells.subtotal_cell (rows (group_of bt t)) m)
                (sort_perm (type_cmp localeCompare) (keys bt)))).
  rewrite (Qsum_map_eq _
             (fun t => Qsum (map
                (fun r => if String.eqb (member r) m then amt r else 0)
                (filter (fun r => String.eqb (spent_type r) t) records)))).
  - rewrite (Qsum_by_key spent_type
               (fun r => if String.eqb (member r) m then amt r else 0)).
    + unfold Cells.total_cell.
      rewrite (fold_left_plus_map
                 (fun r => if String.eqb (member r) m then amt r else 0)).
      ring.
    + apply byType_keys_NoDup.
    + apply byType_keys_types.
  - intros t _. unfold bt. rewrite subtotal_cell_group_of.
    unfold of_category, of_member. symmetry. apply Qsum_share_filter.
Qed.

End TableTotals.

(** *** The cells of the members add up *)

Lemma sum_by_member (MEMBERS : list string) (l : list ExpenseRecord) :
  NoDup MEMBERS -> (forall r, In r l -> In (member r) MEMBERS) ->
  Qsum (map (fun m => sum_amounts (of_member m l)) MEMBERS) == sum_amounts l.
Proof.
  intros N H. rewrite <- Qsum_share_all, <- (Qsum_by_key member amt MEMBERS l N H).
  apply Qsum_map_eq. intros m _. unfold of_member. symmetry.
  apply Qsum_share_all.
Qed.

Section TableRowMeasure.

Variable measure : Row -> Q.
Variable share : ExpenseRecord -> Q.

Hypothesis measure_add :
  forall cur r, measure (add_record cur r) == measure cur + share r.
Hypothesis measure_new : forall k t, measure (mkRow [] 0 k t) == 0.

Lemma byType_fold_row_measure (l : list ExpenseRecord) (bt : obj (obj Row))
  (t k : string) :
  match row_lookup (fold_left byType_step l bt) t k with
  | Some row => measure row
  | None => 0
  end ==
  match row_lookup bt t k with Some row => measure row | None => 0 end
  + Qsum (map share (of_group t k l)).
Proof.
  revert bt. induction l as [|r l IH]; intros bt; simpl.
  - change (Qsum []) with 0. ring.
  - rewrite IH, row_lookup_step.
    destruct (String.eqb (type_key r) t && String.eqb (sub_key r) k); simpl.
    + rewrite Qsum_cons, measure_add.
      destruct (row_lookup bt t k); [ring|]. rewrite measure_new. ring.
    + ring.
Qed.

End TableRowMeasure.

(** A displayed row is the row of its two keys. *)
Lemma rows_lookup (records : list ExpenseRecord) (t : string) (row : Row) :
  In row (rows (group_of (byType records) t)) ->
  row_lookup (byType records) t (rowKey row) = Some row.
Proof.
  cbn [rows group_of]. unfold sorted_rows. intros H.
  apply (Permutation_in _ (sort_perm row_cmp _)) in H.
  set (bt := byType records) in *.
  set (G := match get bt t with Some g => g | None => [] end) in *.
  assert (NG : NoDup (keys G)).
  { unfold G. destruct (get bt t) eqn:E; [|constructor].
    apply (byType_fold_rows_NoDup records []) with t; [discriminate|exact E]. }
  apply in_map_iff in H. destruct H as [[k row'] [E H]]. simpl in E.
  subst row'. apply (In_get _ _ _ NG) in H.
  assert (LK : row_lookup bt t k = Some row).
  { unfold row_lookup. unfold G in H. destruct (get bt t); [exact H|discriminate]. }
  destruct (byType_fold_labels records [] ltac:(discriminate) t k row LK)
    as [-> _].
  exact LK.
Qed.

Lemma row_cell_spec (records : list ExpenseRecord) (t m : string) (row : Row) :
  In row (rows (group_of (byType records) t)) ->
  Cells.row_cell row m ==
  sum_amounts (of_member m (of_group t (rowKey row) records)).
Proof.
  intros H. apply rows_lookup in H.
  pose proof (byType_fold_row_measure
                (fun row => Qget0 (totals row) m)
                (fun r => if String.eqb (member r) m then amt r else 0)) as M.
  specialize (M ltac:(intros cur r; simpl; rewrite Qget0_accum;
                      unfold str_or;
                      destruct (String.eqb (member r) "") eqn:E;
                      [apply String.eqb_eq in E; rewrite E|]; reflexivity)
                ltac:(intros; reflexivity) records [] t (rowKey row)).
  fold (byType records) in M. rewrite H in M. simpl in M.
  unfold Cells.row_cell. rewrite M, Qsum_share_filter.
  unfold of_member. ring.
Qed.

Lemma row_total_spec (records : list ExpenseRecord) (t : string) (row : Row) :
  In row (rows (group_of (byType records) t)) ->
  total row == sum_amounts (of_group t (rowKey row) records).
Proof.
  intros H. apply rows_lookup in H.
  pose proof (byType_fold_total records [] t (rowKey row)) as S.
  fold (byType records) in S. unfold row_total in S. rewrite H in S.
  simpl in S. rewrite S. ring.
Qed.

Section MemberColumns.

Variable localeCompare : string -> string -> Z.
Variable MEMBERS : list string.
Variable records : list ExpenseRecord.

(** When the known members are distinct and every record is attributed to
    one of them, the member cells of every line of the main table add up to
    the Total cell of the line: in the rows, in the subtotal lines and in
    the TOTAL line. *)
Theorem member_cells_add_up :
  NoDup MEMBERS -> (forall r, In r records -> In (member r) MEMBERS) ->
  let tbl := build_main_table localeCompare records in
  Forall
    (fun g =>
       Forall (fun row => Qsum (map (Cells.row_cell row) MEMBERS) == total row)
         (rows g) /\
       Qsum (map (Cells.subtotal_cell (rows g)) MEMBERS) == subtotal g)
    (groups tbl) /\
  Qsum (map (Cells.total_cell records) MEMBERS) == grandTotal tbl.
Proof.
  intros N K. cbv zeta. split.
  - unfold build_main_table. cbn [groups]. apply Forall_forall.
    intros g H. apply in_map_iff in H. destruct H as [t [<- _]]. split.
    + apply Forall_forall. intros row H.
      rewrite (Qsum_map_eq _
        (fun m => sum_amounts (of_member m (of_group t (rowKey row) records)))).
      * rewrite sum_by_member; [symmetry; now apply row_total_spec|exact N|].
        intros r Hr. apply K. unfold of_group in Hr.
        now apply filter_In in Hr.
      * intros m _. now apply row_cell_spec.
    + rewrite (Qsum_map_eq _
        (fun m => sum_amounts (of_member m (of_category t records)))).
      * rewrite sum_by_member; [symmetry; apply subtotal_group_of|exact N|].
        intros r Hr. apply K. unfold of_category in Hr.
        now apply filter_In in Hr.
      * intros m _. apply subtotal_cell_group_of.
  - rewrite grandTotal_sum.
    rewrite (Qsum_map_eq _ (fun m => sum_amounts (of_member m records))).
    + now apply sum_by_member.
    + intros m _. apply total_cell_member.
Qed.

End MemberColumns.

(** The ledger of the shared expenses has the two members of the scenario. *)
Lemma member_cells_add_up_witness :
  NoDup Sample.members /\
  (forall r, In r Sample.shared -> In (member r) Sample.members) /\
  Qsum (map (Cells.total_cell Sample.shared) Sample.members) ==
  grandTotal (build_main_table Sample.code_unit_compare Sample.shared).
Proof.
  assert (N : NoDup Sample.members).
  { repeat constructor; simpl; intuition discriminate. }
  assert (K : forall r, In r Sample.shared -> In (member r) Sample.members).
  { intros r H. simpl in H.
    repeat (destruct H as [<-|H]; [simpl; tauto|]). destruct H. }
  split; [exact N|]. split; [exact K|].
  apply (member_cells_add_up Sample.code_unit_compare Sample.members
           Sample.shared N K).
Defined.

(** *** The legend *)

Lemma Qget0_fold_accum {A : Type} (key : A -> string) (val : A -> Q)
  (l : list A) (o : obj Q) (m : string) :
  Qget0 (fold_left (fun o r => accum o (key r) (val r)) l o) m ==
  Qget0 o m +
  Qsum (map (fun r => if String.eqb (key r) m then val r else 0) l).
Proof.
  revert o. induction l as [|r l IH]; intros o; simpl.
  - change (Qsum []) with 0. ring.
  - rewrite IH, Qget0_accum, Qsum_cons. ring.
Qed.

Lemma memberKey_eq (r : ExpenseRecord) : Legend.memberKey r = member r.
Proof.
  unfold Legend.memberKey. destruct (String.eqb (member r) "") eqn:E.
  - apply String.eqb_eq in E. now rewrite E.
  - reflexivity.
Qed.

Lemma legend_amt_eq (r : ExpenseRecord) : Legend.amt r == amount r.
Proof. unfold Legend.amt. fold (Qor0 (amount r)). now rewrite !Qor0_eq. Qed.

Lemma legend_totals_member (records : list ExpenseRecord) (m : string) :
  Qget0 (Legend.totals records) m == sum_amounts (of_member m records).
Proof.
  unfold Legend.totals. rewrite Qget0_fold_accum.
  change (Qget0 [] m) with 0. rewrite Qplus_0_l.
  unfold of_member.
  rewrite <- (Qsum_share_filter (fun r => String.eqb (member r) m) records).
  apply Qsum_map_eq. intros r _.
  rewrite memberKey_eq. destruct (String.eqb (member r) m); [|reflexivity].
  now rewrite legend_amt_eq, amt_eq.
Qed.

(** The totals table of the legend has one line per known member, in the
    order of [MEMBERS]; the total of a member is the sum of the amounts
    attributed to the member, the number the TOTAL line of the main table
    has in the member's column. *)
Theorem legend_totals_match_total_line (MEMBERS : list string)
  (records : list ExpenseRecord) :
  let lines := Legend.member_totals MEMBERS records in
  map fst lines = MEMBERS /\
  Forall
    (fun mv =>
       snd mv == sum_amounts (of_member (fst mv) records) /\
       snd mv == Cells.total_cell records (fst mv))
    lines.
Proof.
  cbv zeta. unfold Legend.member_totals. split.
  - rewrite map_map. simpl. apply map_id.
  - apply Forall_forall. intros [m v] H. apply in_map_iff in H.
    destruct H as [m' [[= <- <-] _]]. simpl.
    rewrite total_cell_member. split; apply legend_totals_member.
Qed.

Lemma sum_of_member_partition (f : ExpenseRecord -> bool) (m : string)
  (l : list ExpenseRecord) :
  sum_amounts (of_member m (filter f l)) +
  sum_amounts (of_member m (filter (fun r => negb (f r)) l)) ==
  sum_amounts (of_member m l).
Proof.
  induction l as [|r l IH]; simpl.
  - reflexivity.
  - destruct (f r); simpl; destruct (String.eqb (member r) m); simpl;
      rewrite ?sum_amounts_cons, <- ?IH; ring.
Qed.

(** In every row of the reimbursement table the column "Total ANTE + POST"
    is the sum of all the amounts attributed to the member, whatever the
    granularity and the selection: the member's total of the legend. *)
Theorem total_ante_post_is_member_total (MEMBERS : list string)
  (records : list ExpenseRecord) (SUM_GAIN : Q) (gran : Granularity)
  (selected : list string) (weight_input : string -> Q) :
  let rows :=
    rendered_rows MEMBERS
      (compute_reimbursements_and_render MEMBERS records SUM_GAIN gran
         selected weight_input) in
  Forall
    (fun mr =>
       total_ante_post (snd mr) == sum_amounts (of_member (fst mr) records) /\
       total_ante_post (snd mr) == Qget0 (Legend.totals records) (fst mr))
    rows.
Proof.
  cbv zeta. unfold compute_reimbursements_and_render.
  rewrite rendered_rows_eq. apply Forall_forall. intros [m r] H.
  apply in_map_iff in H. destruct H as [m' [[= <- <-] _]]. simpl.
  rewrite legend_totals_member, ante_member_spec, post_member_spec.
  split; apply sum_of_member_partition.
Qed.

(** ** The pies of the detail panel *)

Lemma Qltb_comp (x x' y y' : Q) :
  x == x' -> y == y' -> Qltb x y = Qltb x' y'.
Proof. intros E F. unfold Qltb. now rewrite E, F. Qed.

Lemma Qsum_amount_filter (f : ExpenseRecord -> bool) (l : list ExpenseRecord) :
  Qsum (map (fun r => if f r then amount r else 0) l) ==
  sum_amounts (filter f l).
Proof.
  induction l as [|r l IH]; simpl.
  - reflexivity.
  - rewrite Qsum_cons, IH. destruct (f r).
    + rewrite sum_amounts_cons. ring.
    + ring.
Qed.

Lemma sums_of_member (recs : list ExpenseRecord) (m : string) :
  Qget0 (Pies.sums_of recs) m == sum_amounts (of_member m recs).
Proof.
  unfold Pies.sums_of. rewrite Qget0_fold_accum.
  change (Qget0 [] m) with 0. rewrite Qplus_0_l.
  apply (Qsum_amount_filter (fun r => String.eqb (member r) m)).
Qed.

Lemma slices_fold (sums : obj Q) (M : list string) (p : Pies.Pie) :
  fold_left
    (fun p m =>
       if Qltb 0 (Qget0 sums m)
       then Pies.mkPie (Pies.labels p ++ [m]) (Pies.vals p ++ [get sums m])
       else p)
    M p =
  Pies.mkPie
    (Pies.labels p ++ filter (fun m => Qltb 0 (Qget0 sums m)) M)
    (Pies.vals p ++
     map (get sums) (filter (fun m => Qltb 0 (Qget0 sums m)) M)).
Proof.
  revert p. induction M as [|m M IH]; intros p; simpl.
  - rewrite !app_nil_r. now destruct p.
  - rewrite IH. destruct (Qltb 0 (Qget0 sums m)); simpl.
    + now rewrite <- !app_assoc.
    + reflexivity.
Qed.

Lemma slices_spec (MEMBERS : list string) (recs : list ExpenseRecord) :
  let p := Pies.slices MEMBERS (Pies.sums_of recs) in
  Pies.labels p =
  filter (fun m => Qltb 0 (sum_amounts (of_member m recs))) MEMBERS /\
  Forall2
    (fun m v =>
       exists q, v = Some q /\ q == sum_amounts (of_member m recs) /\ 0 < q)
    (Pies.labels p) (Pies.vals p).
Proof.
  cbv zeta. unfold Pies.slices. rewrite slices_fold. simpl. split.
  - apply filter_ext. intros m. apply Qltb_comp; [reflexivity|].
    apply sums_of_member.
  - induction MEMBERS as [|m M IH]; simpl; [constructor|].
    destruct (Qltb 0 (Qget0 (Pies.sums_of recs) m)) eqn:E; [|exact IH].
    simpl. constructor; [|exact IH].
    apply Qltb_lt in E. pose proof (sums_of_member recs m) as S.
    unfold Qget0 in E, S. destruct (get (Pies.sums_of recs) m) as [q|].
    + exists q. rewrite Qor0_eq in E, S. auto.
    + lra.
Qed.

(** A pie has one slice for each known member whose amounts in the plotted
    records add up to more than zero, in the order of [MEMBERS]; the value
    of the slice is that sum.  A member whose sum is zero or negative, and
    a payer who is not a known member, get no slice. *)
Theorem pie_slices (MEMBERS : list string) (recs : list ExpenseRecord) :
  let p := Pies.slices MEMBERS (Pies.sums_of recs) in
  Pies.labels p =
  filter (fun m => Qltb 0 (sum_amounts (of_member m recs))) MEMBERS /\
  Forall2
    (fun m v =>
       exists q, v = Some q /\ q == sum_amounts (of_member m recs) /\ 0 < q)
    (Pies.labels p) (Pies.vals p).
Proof. apply slices_spec. Qed.

Lemma of_member_app (m : string) (l1 l2 : list ExpenseRecord) :
  sum_amounts (of_member m (l1 ++ l2)) ==
  sum_amounts (of_member m l1) + sum_amounts (of_member m l2).
Proof.
  unfold of_member, sum_amounts. rewrite filter_app, map_app.
  apply Qsum_app.
Qed.

Lemma filter_filter_comm {A : Type} (f g : A -> bool) (l : list A) :
  filter f (filter g l) = filter g (filter f l).
Proof.
  induction l as [|x l IH]; simpl; [reflexivity|].
  destruct (f x) eqn:F, (g x) eqn:G; simpl; rewrite ?F, ?G, IH; reflexivity.
Qed.

Lemma filter_filter_imp {A : Type} (f g : A -> bool) (l : list A) :
  (forall x, f x = true -> g x = true) ->
  filter f (filter g l) = filter f l.
Proof.
  intros H. induction l as [|x l IH]; simpl; [reflexivity|].
  destruct (g x) eqn:G; simpl.
  - now rewrite IH.
  - destruct (f x) eqn:F; [|exact IH]. apply H in F. congruence.
Qed.

(** In the mode "combined" the value of a member's slice is the sum of the
    member's amounts of the subcategory under the category "asso" plus those
    under the category "perso".  The records of any other category are in
    no pie, in any mode: the panels are those of the ledger without them. *)
Theorem combined_pie_is_asso_plus_perso (MEMBERS : list string)
  (records : list ExpenseRecord) (subtype : string) :
  let all := Detail.allRecs records subtype in
  let p :=
    Pies.slices MEMBERS
      (Pies.sums_of
         (Pies.assoRecs records subtype ++ Pies.persoRecs records subtype)) in
  Pies.make_plots MEMBERS records subtype "combined" =
  [Pies.panel_of p "Aucune donnée"] /\
  Forall2
    (fun m v =>
       exists q, v = Some q /\
         q == sum_amounts (of_member m (of_category "asso" all)) +
              sum_amounts (of_member m (of_category "perso" all)))
    (Pies.labels p) (Pies.vals p) /\
  forall mode,
    Pies.make_plots MEMBERS records subtype mode =
    Pies.make_plots MEMBERS
      (filter (fun r => String.eqb (spent_type r) "asso"
                        || String.eqb (spent_type r) "perso") records)
      subtype mode.
Proof.
  cbv zeta. split; [reflexivity|]. split.
  - destruct (slices_spec MEMBERS
                (Pies.assoRecs records subtype ++ Pies.persoRecs records subtype))
      as [_ F].
    eapply Forall2_impl; [|exact F]. intros m v [q [E [S _]]].
    exists q. split; [exact E|]. rewrite S. apply of_member_app.
  - intros mode.
    assert (A : Pies.assoRecs
                  (filter (fun r => String.eqb (spent_type r) "asso"
                                    || String.eqb (spent_type r) "perso")
                     records) subtype
                = Pies.assoRecs records subtype).
    { unfold Pies.assoRecs, Detail.allRecs.
      rewrite (filter_filter_comm
                 (fun r => String.eqb (spent_subtype r) subtype)).
      rewrite filter_filter_imp; [reflexivity|].
      intros r H. now rewrite H. }
    assert (P : Pies.persoRecs
                  (filter (fun r => String.eqb (spent_type r) "asso"
                                    || String.eqb (spent_type r) "perso")
                     records) subtype
                = Pies.persoRecs records subtype).
    { unfold Pies.persoRecs, Detail.allRecs.
      rewrite (filter_filter_comm
                 (fun r => String.eqb (spent_subtype r) subtype)).
      rewrite filter_filter_imp; [reflexivity|].
      intros r H. rewrite H. apply orb_true_r. }
    unfold Pies.make_plots. now rewrite A, P.
Qed.

(** *** The columns of the detail table *)

Section DetailMeasure.

Variable measure : Detail.Row -> Q.
Variable share : ExpenseRecord -> Q.

Hypothesis measure_add :
  forall cur r, measure (Detail.add_record cur r) == measure cur + share r.
Hypothesis measure_new :
  forall k, measure (Detail.mkRow k [] 0 (Detail.mkParts 0 0)) == 0.

Lemma rowsMap_fold_sum (l : list ExpenseRecord) (o : obj Detail.Row) :
  Qsum (map measure (values (fold_left Detail.rowsMap_step l o))) ==
  Qsum (map measure (values o)) + Qsum (map share l).
Proof.
  revert o. induction l as [|r l IH]; intros o; simpl.
  - change (Qsum []) with 0. ring.
  - rewrite IH, Qsum_cons. unfold Detail.rowsMap_step at 1.
    set (cur := match get o (Detail.name_key r) with
                | Some c => c
                | None => Detail.mkRow (Detail.name_key r) [] 0
                            (Detail.mkParts 0 0)
                end).
    pose proof (Qsum_map_put measure o (Detail.name_key r)
                  (Detail.add_record cur r)) as P.
    rewrite measure_add in P.
    assert (C : match get o (Detail.name_key r) with
                | Some v0 => measure v0 | None => 0 end == measure cur).
    { unfold cur. destruct (get o (Detail.name_key r)); [reflexivity|].
      now rewrite measure_new. }
    rewrite C in P. lra.
Qed.

End DetailMeasure.

Lemma detail_column_sum (records : list ExpenseRecord) (subtype m : string) :
  Qsum (map (fun row => Qget0 (Detail.totals row) m)
          (Detail.show_subtype_detail records subtype)) ==
  sum_amounts (of_member m (Detail.allRecs records subtype)).
Proof.
  unfold Detail.show_subtype_detail.
  rewrite (rowsMap_fold_sum (fun row => Qget0 (Detail.totals row) m)
             (fun r => if String.eqb (member r) m then amt r else 0)).
  - simpl. change (Qsum []) with 0. rewrite Qplus_0_l.
    apply Qsum_share_filter.
  - intros cur r. simpl. apply Qget0_accum.
  - intros. reflexivity.
Qed.

(** In the detail table the cells of a member add up, over the rows, to the
    sum of the member's amounts of the subcategory, and the totals of the
    rows add up to the sum of all the amounts of the subcategory. *)
Theorem detail_columns_add_up (records : list ExpenseRecord)
  (subtype : string) :
  let rows := Detail.show_subtype_detail records subtype in
  let all := Detail.allRecs records subtype in
  (forall m, Qsum (map (fun row => Qget0 (Detail.totals row) m) rows) ==
             sum_amounts (of_member m all)) /\
  Qsum (map (fun row => Qor0 (Detail.total row)) rows) == sum_amounts all.
Proof.
  cbv zeta. split; [intros m; apply detail_column_sum|].
  unfold Detail.show_subtype_detail.
  rewrite (rowsMap_fold_sum (fun row => Qor0 (Detail.total row)) amt).
  - simpl. change (Qsum []) with 0. rewrite Qplus_0_l.
    apply Qsum_share_all.
  - intros cur r. simpl. now rewrite !Qor0_eq.
  - intros. reflexivity.
Qed.

(** When every record of the subcategory is under "asso" or under "perso",
    the slices of the combined pie are the column sums of the detail table:
    the value of a member's slice is the sum of the member's cells. *)
Theorem combined_pie_matches_detail_columns (MEMBERS : list string)
  (records : list ExpenseRecord) (subtype : string) :
  (forall r, In r (Detail.allRecs records subtype) ->
             spent_type r = "asso" \/ spent_type r = "perso") ->
  let rows := Detail.show_subtype_detail records subtype in
  let p :=
    Pies.slices MEMBERS
      (Pies.sums_of
         (Pies.assoRecs records subtype ++ Pies.persoRecs records subtype)) in
  Forall2
    (fun m v =>
       exists q, v = Some q /\
         q == Qsum (map (fun row => Qget0 (Detail.totals row) m) rows))
    (Pies.labels p) (Pies.vals p).
Proof.
  intros K. cbv zeta.
  destruct (slices_spec MEMBERS
              (Pies.assoRecs records subtype ++ Pies.persoRecs records subtype))
    as [_ F].
  eapply Forall2_impl; [|exact F]. intros m v [q [E [S _]]].
  exists q. split; [exact E|]. rewrite S, detail_column_sum, of_member_app.
  set (all := Detail.allRecs records subtype) in *.
  rewrite <- (sum_of_member_partition
                (fun r => String.eqb (spent_type r) "asso") m all).
  unfold Pies.assoRecs, Pies.persoRecs. fold all.
  assert (X : filter (fun r => String.eqb (spent_type r) "perso") all =
              filter (fun r => negb (String.eqb (spent_type r) "asso")) all).
  { apply filter_ext_in. intros r H. destruct (K r H) as [T|T]; now rewrite T. }
  rewrite X. reflexivity.
Qed.

(** The subcategory "corep" of the shared ledger has only "asso" records. *)
Lemma combined_pie_matches_detail_columns_witness :
  (forall r, In r (Detail.allRecs Sample.shared "corep") ->
             spent_type r = "asso" \/ spent_type r = "perso") /\
  Forall2
    (fun m v =>
       exists q, v = Some q /\
         q == Qsum (map (fun row => Qget0 (Detail.totals row) m)
                      (Detail.show_subtype_detail Sample.shared "corep")))
    (Pies.labels
       (Pies.slices Sample.members
          (Pies.sums_of
             (Pies.assoRecs Sample.shared "corep" ++
              Pies.persoRecs Sample.shared "corep"))))
    (Pies.vals
       (Pies.slices Sample.members
          (Pies.sums_of
             (Pies.assoRecs Sample.shared "corep" ++
              Pies.persoRecs Sample.shared "corep")))).
Proof.
  assert (K : forall r, In r (Detail.allRecs Sample.shared "corep") ->
                        spent_type r = "asso" \/ spent_type r = "perso").
  { intros r H. simpl in H.
    repeat (destruct H as [<-|H]; [simpl; tauto|]). destruct H. }
  split; [exact K|].
  apply (combined_pie_matches_detail_columns Sample.members Sample.shared
           "corep" K).
Defined.

(** ** The selection panel *)

Lemma Set_has_In (s : list string) (k : string) :
  Set_has s k = true <-> In k s.
Proof.
  unfold Set_has. rewrite existsb_exists. split.
  - intros [x [H E]]. apply String.eqb_eq in E. now subst.
  - intros H. exists k. split; [assumption|apply String.eqb_refl].
Qed.

Lemma Set_add_In (s : list string) (x y : string) :
  In y (AnteChoice.Set_add s x) <-> y = x \/ In y s.
Proof.
  unfold AnteChoice.Set_add. destruct (Set_has s x) eqn:E.
  - apply Set_has_In in E. split; [auto|]. intros [->|H]; assumption.
  - rewrite in_app_iff. simpl. intuition.
Qed.

Lemma Set_add_NoDup (s : list string) (x : string) :
  NoDup s -> NoDup (AnteChoice.Set_add s x).
Proof.
  intros N. unfold AnteChoice.Set_add. destruct (Set_has s x) eqn:E.
  - assumption.
  - apply NoDup_app; [assumption|repeat constructor; intros []|].
    intros y Hy [<-|[]]. apply Set_has_In in Hy. congruence.
Qed.

Lemma items_In (gran : Granularity) (l : list ExpenseRecord)
  (s : list string) (x : string) :
  In x (fold_left (fun s r => AnteChoice.Set_add s (AnteChoice.item gran r)) l s)
  <-> In x s \/ exists r, In r l /\ AnteChoice.item gran r = x.
Proof.
  revert s. induction l as [|r l IH]; intros s; simpl.
  - split; [auto|]. intros [H|[r [[] _]]]. exact H.
  - rewrite IH, Set_add_In. split.
    + intros [[->|H]|[r' [H E]]]; eauto.
    + intros [H|[r' [[->|H] E]]]; eauto.
Qed.

Lemma items_NoDup (gran : Granularity) (l : list ExpenseRecord)
  (s : list string) :
  NoDup s ->
  NoDup (fold_left
           (fun s r => AnteChoice.Set_add s (AnteChoice.item gran r)) l s).
Proof.
  revert s. induction l as [|r l IH]; intros s N; simpl; [assumption|].
  apply IH. now apply Set_add_NoDup.
Qed.

Lemma default_compare_lt_le (a b : string) :
  AnteChoice.default_compare a b < 0 -> string_le a b.
Proof.
  unfold AnteChoice.default_compare, string_le.
  destruct (String_as_OT.compare_spec a b) as [E|L|G]; intros H.
  - now right.
  - now left.
  - exfalso. revert H. apply Qle_not_lt. discriminate.
Qed.

Lemma default_compare_ge_le (a b : string) :
  0 <= AnteChoice.default_compare a b -> string_le b a.
Proof.
  unfold AnteChoice.default_compare, string_le.
  destruct (String_as_OT.compare_spec a b) as [E|L|G]; intros H.
  - right. now symmetry.
  - exfalso. revert H. apply Qlt_not_le. reflexivity.
  - now left.
Qed.

Lemma string_le_trans (a b c : string) :
  string_le a b -> string_le b c -> string_le a c.
Proof.
  unfold string_le. intros [H1| ->] [H2| ->]; auto.
  left. now apply string_lt_trans with b.
Qed.

Lemma sorted_le_NoDup_lt {A : Type} (lt : A -> A -> Prop) (l : list A) :
  StronglySorted (fun a b => lt a b \/ a = b) l -> NoDup l ->
  StronglySorted lt l.
Proof.
  induction 1 as [|a l S IH F]; intros N; [constructor|].
  inversion N as [|? ? Ha N']; subst. constructor; [now apply IH|].
  apply Forall_forall. intros b Hb.
  rewrite Forall_forall in F. destruct (F b Hb) as [L|E]; [exact L|].
  subst. contradiction.
Qed.

Lemma check_first_values (p : string -> bool) (l : list AnteChoice.Checkbox) :
  map AnteChoice.value (AnteChoice.check_first p l) = map AnteChoice.value l.
Proof.
  induction l as [|c l IH]; simpl; [reflexivity|].
  destruct (p (AnteChoice.value c)); simpl; [reflexivity|now rewrite IH].
Qed.

Lemma renderChoices_values (gran : Granularity)
  (records : list ExpenseRecord) :
  map AnteChoice.value (AnteChoice.renderChoices gran records) =
  AnteChoice.sorted gran records.
Proof.
  unfold AnteChoice.renderChoices.
  assert (E : map AnteChoice.value
                (map (fun it => AnteChoice.mkCheckbox it false)
                   (AnteChoice.sorted gran records)) =
              AnteChoice.sorted gran records).
  { rewrite map_map. simpl. apply map_id. }
  destruct gran; rewrite ?check_first_values; exact E.
Qed.

Lemma sorted_In (gran : Granularity) (records : list ExpenseRecord)
  (x : string) :
  In x (AnteChoice.sorted gran records) <->
  exists r, In r records /\ AnteChoice.item gran r = x.
Proof.
  unfold AnteChoice.sorted, AnteChoice.items.
  pose proof (sort_perm AnteChoice.default_compare
                (fold_left
                   (fun s r => AnteChoice.Set_add s (AnteChoice.item gran r))
                   records [])) as P.
  split.
  - intros H. apply (Permutation_in _ P) in H. apply items_In in H.
    destruct H as [[]|H]. exact H.
  - intros H. apply (Permutation_in _ (Permutation_sym P)).
    apply items_In. now right.
Qed.

(** The panel offers one checkbox for each distinct value that the records
    have at the chosen granularity, a blank value being offered under its
    placeholder; the checkboxes are in strictly increasing order of their
    code units, so none is offered twice. *)
Theorem ante_choices_sorted_complete (gran : Granularity)
  (records : list ExpenseRecord) :
  let offered :=
    map AnteChoice.value (AnteChoice.renderChoices gran records) in
  StronglySorted String_as_OT.lt offered /\
  (forall x, In x offered <->
             exists r, In r records /\ AnteChoice.item gran r = x).
Proof.
  cbv zeta. rewrite renderChoices_values. split; [|apply sorted_In].
  apply sorted_le_NoDup_lt.
  - apply (sort_sorted AnteChoice.default_compare string_le).
    + apply default_compare_lt_le.
    + apply default_compare_ge_le.
    + apply string_le_trans.
  - apply (Permutation_NoDup
             (Permutation_sym (sort_perm AnteChoice.default_compare _))).
    apply items_NoDup. constructor.
Qed.

Lemma selected_In (boxes : list AnteChoice.Checkbox) (s : list string)
  (x : string) :
  In x (fold_left
          (fun s ch => if AnteChoice.checked ch
                       then AnteChoice.Set_add s (AnteChoice.value ch) else s)
          boxes s) ->
  In x s \/ In x (map AnteChoice.value boxes).
Proof.
  revert s. induction boxes as [|c boxes IH]; intros s; simpl; [auto|].
  intros H. apply IH in H. destruct H as [H|H]; [|auto].
  destruct (AnteChoice.checked c); [|auto].
  apply Set_add_In in H. destruct H as [->|H]; auto.
Qed.

Lemma item_not_blank (gran : Granularity) (r : ExpenseRecord) :
  AnteChoice.item gran r <> "".
Proof.
  destruct gran; simpl; unfold str_or;
    match goal with |- context [String.eqb ?s ""] =>
      destruct (String.eqb s "") eqn:E end;
    try discriminate; now apply String.eqb_neq in E.
Qed.

(** A record whose value at the chosen granularity is blank is never ANTE,
    whichever checkboxes of the panel are ticked: the panel offers the blank
    value under a placeholder, and the Allocator looks the blank value
    itself up in the selection. *)
Theorem blank_value_is_never_ante (gran : Granularity)
  (records : list ExpenseRecord) (boxes : list AnteChoice.Checkbox)
  (r : ExpenseRecord) :
  map AnteChoice.value boxes =
  map AnteChoice.value (AnteChoice.renderChoices gran records) ->
  ante_key gran r = "" ->
  Set_has (AnteChoice.selected boxes) (ante_key gran r) = false /\
  ~ In r (Spec.ANTE records gran (AnteChoice.selected boxes)).
Proof.
  intros V B.
  assert (X : Set_has (AnteChoice.selected boxes) (ante_key gran r) = false).
  { apply not_true_iff_false. intros H. apply Set_has_In in H.
    rewrite B in H. apply selected_In in H. destruct H as [[]|H].
    rewrite V, renderChoices_values in H. apply sorted_In in H.
    destruct H as [r' [_ E]]. now apply item_not_blank in E. }
  split; [exact X|]. unfold Spec.ANTE. rewrite filter_In.
  unfold selects. rewrite X. intros [_ F]. discriminate.
Qed.

(** A record without a subcategory, and the panel with its placeholder
    ticked. *)
Lemma blank_value_is_never_ante_witness :
  let r := mkRecord "perso" "" "the" 5 "A" in
  let boxes := [AnteChoice.mkCheckbox "(no subtype)" true] in
  map AnteChoice.value boxes =
  map AnteChoice.value (AnteChoice.renderChoices GSubtype [r]) /\
  ante_key GSubtype r = "" /\
  Set_has (AnteChoice.selected boxes) (ante_key GSubtype r) = false.
Proof.
  cbv zeta.
  assert (V : map AnteChoice.value [AnteChoice.mkCheckbox "(no subtype)" true] =
              map AnteChoice.value
                (AnteChoice.renderChoices GSubtype
                   [mkRecord "perso" "" "the" 5 "A"])) by reflexivity.
  assert (B : ante_key GSubtype (mkRecord "perso" "" "the" 5 "A") = "")
    by reflexivity.
  split; [exact V|]. split; [exact B|].
  apply (blank_value_is_never_ante GSubtype
           [mkRecord "perso" "" "the" 5 "A"]
           [AnteChoice.mkCheckbox "(no subtype)" true]
           (mkRecord "perso" "" "the" 5 "A") V B).
Defined.

Lemma selected_unchecked (l : list string) (s : list string) :
  fold_left
    (fun s ch => if AnteChoice.checked ch
                 then AnteChoice.Set_add s (AnteChoice.value ch) else s)
    (map (fun it => AnteChoice.mkCheckbox it false) l) s = s.
Proof. revert s. induction l as [|x l IH]; intros s; simpl; auto. Qed.

Lemma selected_check_first (p : string -> bool) (l : list string) :
  AnteChoice.selected
    (AnteChoice.check_first p
       (map (fun it => AnteChoice.mkCheckbox it false) l)) =
  match find p l with Some t => [t] | None => [] end.
Proof.
  unfold AnteChoice.selected. induction l as [|x l IH]; simpl; [reflexivity|].
  destruct (p x); simpl.
  - apply selected_unchecked.
  - exact IH.
Qed.

(** When the page loads, the panel is at the granularity of the categories.
    If "asso" is the only spelling of that word among the categories of the
    ledger, the records that are ANTE on load are exactly the records of the
    category "asso"; the selection is that one category, or nothing when the
    ledger has no such record. *)
Theorem initial_selection_is_asso (records : list ExpenseRecord) :
  (forall r, In r records ->
             toLowerCase (spent_type r) = "asso" -> spent_type r = "asso") ->
  let sel := AnteChoice.selected (AnteChoice.renderChoices GType records) in
  Spec.ANTE records GType sel = of_category "asso" records /\
  (sel = ["asso"] \/ sel = [] /\ of_category "asso" records = []).
Proof.
  intros K. cbv zeta. unfold AnteChoice.renderChoices.
  rewrite selected_check_first.
  set (p := fun v => String.eqb (toLowerCase v) "asso").
  destruct (find p (AnteChoice.sorted GType records)) as [t|] eqn:F.
  - apply find_some in F. destruct F as [I P].
    apply sorted_In in I. destruct I as [r [Hr E]].
    unfold p in P. apply String.eqb_eq in P.
    assert (T : t = "asso").
    { simpl in E. unfold str_or in E.
      destruct (String.eqb (spent_type r) "") eqn:B.
      - subst t. discriminate.
      - subst t. now apply K. }
    rewrite T. split; [|now left].
    unfold Spec.ANTE, of_category. apply filter_ext. intros x.
    unfold selects, Set_has. simpl. apply orb_false_r.
  - assert (N : of_category "asso" records = []).
    { unfold of_category.
      destruct (filter (fun r => String.eqb (spent_type r) "asso") records)
        as [|r l] eqn:E; [reflexivity|]. exfalso.
      assert (I : In r (r :: l)) by now left.
      rewrite <- E in I. apply filter_In in I. destruct I as [I T].
      apply String.eqb_eq in T.
      assert (S : In "asso" (AnteChoice.sorted GType records)).
      { apply sorted_In. exists r. split; [assumption|].
        simpl. now rewrite T. }
      apply (find_none _ _ F) in S. discriminate. }
    split; [|now right]. rewrite N. unfold Spec.ANTE.
    clear. induction records as [|r l IH]; [reflexivity|]. simpl. apply IH.
Qed.

(** The specification's scenario: the categories "perso" and "asso". *)
Lemma initial_selection_is_asso_witness :
  (forall r, In r Sample.ledger ->
             toLowerCase (spent_type r) = "asso" -> spent_type r = "asso") /\
  Spec.ANTE Sample.ledger GType
    (AnteChoice.selected (AnteChoice.renderChoices GType Sample.ledger)) =
  of_category "asso" Sample.ledger.
Proof.
  assert (K : forall r, In r Sample.ledger ->
                toLowerCase (spent_type r) = "asso" -> spent_type r = "asso").
  { intros r H. simpl in H.
    repeat (destruct H as [<-|H]; [simpl; intros E; try discriminate E; reflexivity|]).
    destruct H. }
  split; [exact K|].
  apply (initial_selection_is_asso Sample.ledger K).
Defined.

(** ** The default weights *)

Lemma put_new {V : Type} (o : obj V) (k : string) (v : V) :
  ~ In k (keys o) -> put o k v = (o ++ [(k, v)])%list.
Proof.
  induction o as [|[k' v'] o IH]; simpl; intros N; [reflexivity|].
  destruct (String.eqb k' k) eqn:E.
  - apply String.eqb_eq in E. subst. elim N. now left.
  - rewrite IH by tauto. reflexivity.
Qed.

Lemma fold_put_fresh {V : Type} (g : string -> V) (M : list string)
  (o : obj V) :
  NoDup (keys o ++ M) ->
  fold_left (fun o m => put o m (g m)) M o =
  (o ++ map (fun m => (m, g m)) M)%list.
Proof.
  revert o. induction M as [|m M IH]; intros o N; simpl.
  - now rewrite app_nil_r.
  - assert (X : ~ In m (keys o)).
    { apply NoDup_remove_2 in N. intros H. apply N, in_or_app. now left. }
    rewrite put_new by assumption. rewrite IH.
    + now rewrite <- app_assoc.
    + unfold keys. rewrite map_app. simpl. rewrite <- app_assoc. exact N.
Qed.

Lemma keys_put_old {V : Type} (o : obj V) (k : string) (v : V) :
  In k (keys o) -> keys (put o k v) = keys o.
Proof.
  induction o as [|[k' v'] o IH]; simpl; intros H; [destruct H|].
  destruct (String.eqb k' k) eqn:E; simpl; [reflexivity|].
  apply String.eqb_neq in E. destruct H as [H|H]; [congruence|].
  now rewrite IH.
Qed.

Lemma keys_fold_put_old {V : Type} (g : string -> V) (M : list string)
  (o : obj V) :
  incl M (keys o) -> keys (fold_left (fun o m => put o m (g m)) M o) = keys o.
Proof.
  revert o. induction M as [|m M IH]; intros o I; simpl; [reflexivity|].
  assert (Hm : In m (keys o)) by (apply I; now left).
  rewrite IH; rewrite keys_put_old by assumption; [reflexivity|].
  intros x Hx. apply I. now right.
Qed.

(** An object is its keys and what they read. *)
Lemma obj_ext {V : Type} (g : string -> V) (o : obj V) :
  NoDup (keys o) -> (forall k, In k (keys o) -> get o k = Some (g k)) ->
  o = map (fun k => (k, g k)) (keys o).
Proof.
  induction o as [|[k v] o IH]; simpl; intros N H; [reflexivity|].
  inversion N as [|? ? Hk N']; subst.
  pose proof (H k (or_introl eq_refl)) as E. rewrite String.eqb_refl in E.
  injection E as E. subst v. f_equal. apply IH; [assumption|].
  intros k' Hk'. specialize (H k' (or_intror Hk')).
  destruct (String.eqb k k') eqn:X; [|exact H].
  apply String.eqb_eq in X. subst. contradiction.
Qed.

Lemma get_map_pair {V : Type} (F : string -> V) (M : list string)
  (m : string) :
  In m M -> get (map (fun m => (m, F m)) M) m = Some (F m).
Proof.
  induction M as [|x l IH]; simpl; intros H; [destruct H|].
  destruct (String.eqb x m) eqn:X.
  - apply String.eqb_eq in X. now subst.
  - apply String.eqb_neq in X. destruct H as [H|H]; [congruence|].
    now apply IH.
Qed.

Section DefaultWeights.

Variable toLowerCase : string -> string.

#[local] Abbreviation iw := (Defaults.initial_weight toLowerCase).
#[local] Abbreviation payer := (fun m => Qltb 0 (Defaults.initial_weight toLowerCase m)).

Lemma initial_weight_cases (m : string) :
  (iw m = 1 # 2 /\ payer m = true) \/ (iw m = 0 /\ payer m = false).
Proof.
  cbv beta. unfold Defaults.initial_weight. cbv zeta.
  destruct (Defaults.includes (toLowerCase m) "helene"
            || Defaults.includes (toLowerCase m) "hélène"); [now left|].
  destruct (Defaults.includes (toLowerCase m) "lucie"); [now left|now right].
Qed.

Lemma initial_weight_sum (M : list string) :
  Qsum (map iw M) ==
  inject_Z (Z.of_nat (List.length (filter payer M))) * (1 # 2).
Proof.
  induction M as [|m M IH].
  - reflexivity.
  - cbn [map filter]. rewrite Qsum_cons, IH.
    destruct (initial_weight_cases m) as [[E P]|[E P]]; rewrite P, E.
    + cbn [List.length]. rewrite Nat2Z.inj_succ. unfold Z.succ.
      rewrite inject_Z_plus. ring.
    + ring.
Qed.

Lemma length_pos_Q {A : Type} (l : list A) :
  l <> [] -> 0 < inject_Z (Z.of_nat (List.length l)).
Proof.
  intros H. destruct l as [|x l]; [congruence|].
  change 0 with (inject_Z 0). rewrite <- Zlt_Qlt. simpl List.length. lia.
Qed.

Lemma default_weights_eq (members : list string) :
  NoDup members ->
  Defaults.default_weights toLowerCase members =
  if Qltb 0 (Qsum (map iw members))
  then map (fun m => (m, div (iw m) (Qsum (map iw members)))) members
  else map (fun m => (m, div 1 (inject_Z (Z.of_nat (List.length members)))))
         members.
Proof.
  intros N. unfold Defaults.default_weights. cbv zeta.
  rewrite (fold_put_fresh iw members []) by exact N. simpl.
  unfold values. rewrite !map_map. simpl.
  destruct (Qltb 0 (Qsum (map iw members))); [reflexivity|].
  set (o := map (fun m => (m, Fin (iw m))) members).
  set (g := fun _ : string => div 1 (inject_Z (Z.of_nat (List.length members)))).
  assert (K : keys o = members).
  { unfold o, keys. rewrite map_map. simpl. apply map_id. }
  assert (K' : keys (fold_left (fun w m => put w m (g m)) members o) = members).
  { rewrite keys_fold_put_old; [exact K|]. rewrite K. apply incl_refl. }
  pose proof (obj_ext g (fold_left (fun w m => put w m (g m)) members o)) as R.
  rewrite K' in R. apply R; [exact N|].
  intros k Hk. now apply fold_put_get_in.
Qed.

(** A member is given a default share when its name, in lower case, holds
    "helene", "hélène" or "lucie".  Among distinct members, those who are
    given a share get the same weight, one over their number, and the others
    get zero; when nobody is given a share, every member gets one over the
    number of members. *)
Theorem default_weights_share_equally (members : list string) :
  NoDup members ->
  let k :=
    inject_Z (Z.of_nat (List.length
      (filter (fun m => Qltb 0 (Defaults.initial_weight toLowerCase m))
         members))) in
  let n := inject_Z (Z.of_nat (List.length members)) in
  (forall m,
     Qltb 0 (Defaults.initial_weight toLowerCase m) =
     Defaults.includes (toLowerCase m) "helene"
     || Defaults.includes (toLowerCase m) "hélène"
     || Defaults.includes (toLowerCase m) "lucie") /\
  Forall
    (fun m =>
       exists q,
         get (Defaults.default_weights toLowerCase members) m = Some (Fin q) /\
         q == if Qltb 0 k
              then if Qltb 0 (Defaults.initial_weight toLowerCase m)
                   then 1 / k else 0
              else 1 / n)
    members.
Proof.
  intros N. cbv zeta. split.
  { intros m. unfold Defaults.initial_weight. cbv zeta.
    destruct (Defaults.includes (toLowerCase m) "helene"
              || Defaults.includes (toLowerCase m) "hélène"); [reflexivity|].
    destruct (Defaults.includes (toLowerCase m) "lucie"); reflexivity. }
  rewrite default_weights_eq by exact N.
  pose proof (initial_weight_sum members) as S.
  set (k := inject_Z (Z.of_nat (List.length (filter payer members)))) in *.
  assert (B : Qltb 0 (Qsum (map iw members)) = Qltb 0 k).
  { destruct (Qltb 0 k) eqn:E.
    - apply Qltb_lt in E. apply Qltb_lt. lra.
    - apply Qltb_ge in E. apply Qltb_ge. lra. }
  rewrite B. apply Forall_forall. intros m Hm.
  destruct (Qltb 0 k) eqn:E.
  - apply Qltb_lt in E.
    rewrite (get_map_pair (fun m => div (iw m) (Qsum (map iw members))))
      by assumption.
    rewrite div_nonzero by lra. eexists. split; [reflexivity|].
    destruct (initial_weight_cases m) as [[I P]|[I P]]; rewrite P, I, S.
    + field. lra.
    + field. lra.
  - rewrite (get_map_pair
               (fun _ => div 1 (inject_Z (Z.of_nat (List.length members)))))
      by assumption.
    assert (P : 0 < inject_Z (Z.of_nat (List.length members))).
    { apply length_pos_Q. intros X. rewrite X in Hm. destruct Hm. }
    rewrite div_nonzero by lra. eexists. split; reflexivity.
Qed.

(** In exact arithmetic the default weights of one or more distinct members
    add up to one; each member has a weight, and every weight is finite. *)
Theorem default_weights_sum_to_one (members : list string) :
  members <> [] -> NoDup members ->
  let w := Defaults.default_weights toLowerCase members in
  keys w = members /\
  Forall (fun v => is_finite v = true) (values w) /\
  num_eq (num_sum (values w)) (Fin 1).
Proof.
  intros E N. cbv zeta. rewrite default_weights_eq by exact N.
  pose proof (length_pos_Q members E) as P.
  destruct (Qltb 0 (Qsum (map iw members))) eqn:B.
  - apply Qltb_lt in B. unfold keys, values. rewrite !map_map. simpl.
    split; [apply map_id|]. split.
    + apply Forall_forall. intros v Hv. apply in_map_iff in Hv.
      destruct Hv as [m [<- _]]. apply div_finite_iff. lra.
    + rewrite (num_sum_Fin _ (fun m => iw m / Qsum (map iw members))).
      * cbn [num_eq].
        rewrite (Qsum_map_ext _ (fun m => / Qsum (map iw members) * iw m)).
        -- rewrite Qsum_map_scale. field. lra.
        -- intros m _. field. lra.
      * intros m _. apply div_nonzero. lra.
  - unfold keys, values. rewrite !map_map. simpl.
    split; [apply map_id|]. split.
    + apply Forall_forall. intros v Hv. apply in_map_iff in Hv.
      destruct Hv as [m [<- _]]. apply div_finite_iff. lra.
    + rewrite (num_sum_Fin _
                 (fun _ => 1 / inject_Z (Z.of_nat (List.length members)))).
      * cbn [num_eq]. rewrite Qsum_map_const. field. lra.
      * intros m _. apply div_nonzero. lra.
Qed.

End DefaultWeights.

(** Two sisters and a friend, with the lower case of the ASCII letters. *)
Lemma default_weights_share_equally_witness :
  NoDup ["Helene"; "Lucie"; "David"] /\
  exists q,
    get (Defaults.default_weights toLowerCase ["Helene"; "Lucie"; "David"])
      "Lucie" = Some (Fin q) /\ q == 1 # 2.
Proof.
  assert (N : NoDup ["Helene"; "Lucie"; "David"]).
  { repeat constructor; simpl; intuition discriminate. }
  split; [exact N|].
  destruct (default_weights_share_equally toLowerCase
              ["Helene"; "Lucie"; "David"] N) as [_ F].
  rewrite Forall_forall in F.
  destruct (F "Lucie" ltac:(simpl; tauto)) as [q [G Q]].
  exists q. split; [exact G|]. rewrite Q. reflexivity.
Defined.

Lemma default_weights_sum_to_one_witness :
  ["Helene"; "Lucie"; "David"] <> [] /\
  NoDup ["Helene"; "Lucie"; "David"] /\
  num_eq
    (num_sum
       (values
          (Defaults.default_weights toLowerCase ["Helene"; "Lucie"; "David"])))
    (Fin 1).
Proof.
  assert (E : ["Helene"; "Lucie"; "David"] <> []) by discriminate.
  assert (N : NoDup ["Helene"; "Lucie"; "David"]).
  { repeat constructor; simpl; intuition discriminate. }
  split; [exact E|]. split; [exact N|].
  apply (default_weights_sum_to_one toLowerCase
           ["Helene"; "Lucie"; "David"] E N).
Defined.

(** ** The ingestion script *)

(** *** [safe_json_for_js] *)

Lemma prefix_close_iff (s : string) :
  String.prefix "</" s = true <-> exists t, s = String "<" (String "/" t).
Proof.
  split.
  - destruct s as [|c [|d t]]; cbn [String.prefix]; try discriminate.
    + destruct (ascii_dec "<" c); discriminate.
    + destruct (ascii_dec "<" c) as [<-|]; [|discriminate].
      destruct (ascii_dec "/" d) as [<-|]; [|discriminate].
      intros _. now exists t.
  - intros [t ->]. cbn [String.prefix].
    destruct (ascii_dec "<" "<") as [_|X]; [|congruence].
    destruct (ascii_dec "/" "/") as [_|X]; [|congruence].
    destruct t; reflexivity.
Qed.

Lemma replace_close_spec (n : nat) (s : string) :
  (String.length s <= n)%nat ->
  Json.contains (Json.replace "</" "<\/" s) "</" = false /\
  (forall c t, Json.replace "</" "<\/" s = String c t ->
               exists t', s = String c t').
Proof.
  revert s. induction n as [|n IH]; intros s L.
  - destruct s; [|simpl in L; lia]. split; [reflexivity|discriminate].
  - destruct s as [|c s']; [split; [reflexivity|discriminate]|].
    simpl in L. unfold Json.replace. cbn [Json.replace_from].
    destruct (String.prefix "</" (String c s')) eqn:E.
    + apply prefix_close_iff in E. destruct E as [t E].
      injection E as -> ->. cbn [String.length Nat.sub Json.replace_from].
      simpl in L. destruct (IH t ltac:(lia)) as [C _].
      unfold Json.replace in C. split.
      * cbn [append Json.contains]. rewrite C. reflexivity.
      * intros c t0 [= <- _]. eauto.
    + destruct (IH s' ltac:(lia)) as [C H]. unfold Json.replace in C, H.
      split.
      * cbn [Json.contains]. rewrite C, orb_false_r.
        apply not_true_iff_false. intros P.
        apply prefix_close_iff in P. destruct P as [t P].
        injection P as -> P. destruct (H _ _ P) as [t' ->].
        assert (X : String.prefix "</" (String "<" (String "/" t')) = true)
          by (apply prefix_close_iff; eauto).
        congruence.
      * intros c0 t0 [= <- _]. eauto.
Qed.

Lemma replace_close_id (s : string) :
  Json.contains s "</" = false -> Json.replace "</" "<\/" s = s.
Proof.
  unfold Json.replace. induction s as [|c s IH]; [reflexivity|].
  cbn [Json.contains Json.replace_from]. intros H.
  apply orb_false_iff in H. destruct H as [P C]. rewrite P, IH by exact C.
  reflexivity.
Qed.

(** Whatever [json.dumps] returns, the text that goes into the page's
    script holds no "</", so no value of the ledger can close the script
    element; a text without "</" is passed on unchanged. *)
Theorem safe_json_never_closes_script (value : Type)
  (json_dumps : value -> string) (obj : value) :
  Json.contains (Json.safe_json_for_js value json_dumps obj) "</" = false /\
  (Json.contains (json_dumps obj) "</" = false ->
   Json.safe_json_for_js value json_dumps obj = json_dumps obj).
Proof.
  unfold Json.safe_json_for_js. split.
  - apply (replace_close_spec (String.length (json_dumps obj))). lia.
  - apply replace_close_id.
Qed.

Section Ingestion.

Local Open Scope list_scope.

(** *** [clean_member_name] *)

Lemma split_from_words (s cur : Py.str) :
  Forall (fun c => Py.isspace c = false) cur ->
  Forall Py.word (Py.split_from cur s).
Proof.
  revert cur. induction s as [|c s IH]; intros cur N; simpl.
  - destruct cur; simpl; constructor; [|constructor].
    split; [discriminate|assumption].
  - destruct (Py.isspace c) eqn:E.
    + destruct cur; simpl; [apply IH; constructor|].
      constructor; [split; [discriminate|assumption]|].
      apply IH. constructor.
    + apply IH. apply Forall_app. split; [assumption|].
      constructor; [assumption|constructor].
Qed.

Lemma split_from_word_app (w s cur : Py.str) :
  Forall (fun c => Py.isspace c = false) w ->
  Py.split_from cur (w ++ s) = Py.split_from (cur ++ w) s.
Proof.
  revert cur. induction w as [|c w IH]; intros cur N; simpl.
  - now rewrite app_nil_r.
  - inversion N as [|? ? Hc N']; subst. rewrite Hc, IH by assumption.
    now rewrite <- app_assoc.
Qed.

Lemma split_join (ws : list Py.str) :
  Forall Py.word ws -> Py.split (Py.join [32%N] ws) = ws.
Proof.
  unfold Py.split. induction ws as [|w l IH]; intros F; [reflexivity|].
  inversion F as [|? ? [Nw Sw] F']; subst.
  destruct l as [|w2 l'].
  - cbn [Py.join]. rewrite <- (app_nil_r w) at 1.
    rewrite split_from_word_app by assumption. simpl.
    destruct w; [congruence|reflexivity].
  - change (Py.join [32%N] (w :: w2 :: l'))
      with (w ++ 32%N :: Py.join [32%N] (w2 :: l'))%list.
    rewrite split_from_word_app by assumption.
    cbn [Py.split_from app]. change (Py.isspace 32) with true. cbv iota.
    rewrite IH by assumption. destruct w; [congruence|reflexivity].
Qed.

Lemma join_head (ws : list Py.str) (c : N) (t : Py.str) :
  Forall Py.word ws -> Py.join [32%N] ws = c :: t -> Py.isspace c = false.
Proof.
  intros F. destruct ws as [|w l]; [discriminate|].
  inversion F as [|? ? [Nw Sw] F']; subst.
  destruct w as [|d w]; [congruence|]. inversion Sw; subst.
  destruct l; cbn [Py.join app]; intros [= <- _]; assumption.
Qed.

Lemma join_last (ws : list Py.str) :
  Forall Py.word ws -> ws <> [] ->
  exists t c, Py.join [32%N] ws = (t ++ [c])%list /\ Py.isspace c = false.
Proof.
  induction ws as [|w l IH]; intros F E; [congruence|].
  inversion F as [|? ? [Nw Sw] F']; subst.
  destruct l as [|w2 l'].
  - cbn [Py.join]. destruct (exists_last Nw) as [t [c ->]].
    exists t, c. split; [reflexivity|].
    apply Forall_app in Sw. destruct Sw as [_ Sc]. now inversion Sc.
  - destruct (IH F' ltac:(discriminate)) as [t [c [J S]]].
    exists (w ++ 32%N :: t)%list, c. split; [|exact S].
    change (Py.join [32%N] (w :: w2 :: l'))
      with (w ++ 32%N :: Py.join [32%N] (w2 :: l'))%list.
    rewrite J, <- app_assoc. reflexivity.
Qed.

Lemma strip_join (ws : list Py.str) :
  Forall Py.word ws -> Py.strip (Py.join [32%N] ws) = Py.join [32%N] ws.
Proof.
  intros F. unfold Py.strip.
  assert (L : Py.lstrip (Py.join [32%N] ws) = Py.join [32%N] ws).
  { destruct (Py.join [32%N] ws) as [|c t] eqn:J; [reflexivity|].
    simpl. now rewrite (join_head ws c t F J). }
  rewrite L. unfold Py.rstrip.
  destruct ws as [|w l]; [reflexivity|].
  destruct (join_last (w :: l) F ltac:(discriminate)) as [t [c [J S]]].
  rewrite J, rev_unit. simpl. rewrite S. simpl. now rewrite rev_involutive.
Qed.

Lemma lstrip_decomp (s : Py.str) :
  exists sp, s = (sp ++ Py.lstrip s)%list /\
             Forall (fun c => Py.isspace c = true) sp.
Proof.
  induction s as [|c s [sp [E F]]]; simpl.
  - exists []. split; [reflexivity|constructor].
  - destruct (Py.isspace c) eqn:X.
    + exists (c :: sp). split; [simpl; now rewrite <- E|now constructor].
    + exists []. split; [reflexivity|constructor].
Qed.

Lemma rstrip_decomp (s : Py.str) :
  exists sp, s = (Py.rstrip s ++ sp)%list /\
             Forall (fun c => Py.isspace c = true) sp.
Proof.
  destruct (lstrip_decomp (rev s)) as [sp [E F]].
  exists (rev sp). split; [|now apply Forall_rev].
  unfold Py.rstrip. rewrite <- rev_app_distr, <- E. now rewrite rev_involutive.
Qed.

Lemma split_from_trailing (sp t cur : Py.str) :
  Forall (fun c => Py.isspace c = true) sp ->
  Py.split_from cur (t ++ sp) = Py.split_from cur t.
Proof.
  intros F. revert cur. induction t as [|c t IH]; intros cur; simpl.
  - revert cur. induction F as [|c sp Hc F IH]; intros cur; [reflexivity|].
    simpl. rewrite Hc. destruct cur; simpl; rewrite IH; reflexivity.
  - destruct (Py.isspace c); [destruct cur; simpl|]; now rewrite IH.
Qed.

Lemma split_strip (s : Py.str) : Py.split (Py.strip s) = Py.split s.
Proof.
  unfold Py.split, Py.strip.
  destruct (rstrip_decomp (Py.lstrip s)) as [sp [E F]].
  rewrite <- (split_from_trailing sp (Py.rstrip (Py.lstrip s)) [] F), <- E.
  clear. induction s as [|c s IH]; [reflexivity|]. simpl.
  destruct (Py.isspace c) eqn:X; [exact IH|]. simpl. now rewrite X.
Qed.

Lemma clean_member_name_parts (x : Py.str) :
  Py.clean_member_name (Some x) = Py.join [32%N] (Py.split x) /\
  Forall Py.word (Py.split x).
Proof.
  unfold Py.clean_member_name. cbv zeta. rewrite split_strip.
  split; [reflexivity|]. apply split_from_words. constructor.
Qed.

(** The cleaned name is made of the words of the name, in their order, with
    one space between two words: no white space at either end, none but the
    plain space, never two in a row.  Cleaning a cleaned name changes
    nothing. *)
Theorem clean_member_name_normal_form (x : Py.str) :
  let c := Py.clean_member_name (Some x) in
  c = Py.join [32%N] (Py.split x) /\
  Forall Py.word (Py.split x) /\
  Py.clean_member_name (Some c) = c.
Proof.
  cbv zeta. unfold Py.clean_member_name. cbv zeta. rewrite split_strip.
  assert (W : Forall Py.word (Py.split x))
    by (apply split_from_words; constructor).
  split; [reflexivity|]. split; [exact W|].
  now rewrite strip_join, split_join.
Qed.

(** *** The known members *)

Lemma N_compare_trans (x y z : N) (c : comparison) :
  N.compare x y = c -> N.compare y z = c -> N.compare x z = c.
Proof.
  destruct c; intros H1 H2.
  - apply N.compare_eq_iff in H1, H2. subst. apply N.compare_refl.
  - rewrite N.compare_lt_iff in *. lia.
  - rewrite N.compare_gt_iff in *. lia.
Qed.

Lemma str_eqb_eq (a b : Py.str) : Py.str_eqb a b = true <-> a = b.
Proof.
  unfold Py.str_eqb.
  rewrite <- (list_compare_refl N.compare N.compare_eq_iff a b).
  destruct (list_compare N.compare a b); split; congruence.
Qed.

Lemma str_lt_trans (a b c : Py.str) :
  Py.str_lt a b -> Py.str_lt b c -> Py.str_lt a c.
Proof.
  unfold Py.str_lt.
  apply (list_compare_trans N.compare N.compare_eq_iff a b c).
  - apply N_compare_trans.
  - intros x y. apply N.compare_antisym.
Qed.

Lemma str_cmp_lt_le (a b : Py.str) :
  Py.str_cmp a b < 0 -> Py.str_lt a b \/ a = b.
Proof.
  unfold Py.str_cmp, Py.str_lt.
  destruct (list_compare N.compare a b) eqn:E; intros H.
  - right. now apply (list_compare_refl N.compare N.compare_eq_iff).
  - now left.
  - exfalso. revert H. apply Qle_not_lt. discriminate.
Qed.

Lemma str_cmp_ge_le (a b : Py.str) :
  0 <= Py.str_cmp a b -> Py.str_lt b a \/ b = a.
Proof.
  unfold Py.str_cmp, Py.str_lt.
  rewrite (list_compare_antisym N.compare N.compare_eq_iff a b)
    by (intros x y; apply N.compare_antisym).
  destruct (list_compare N.compare a b) eqn:E; intros H.
  - right. symmetry.
    now apply (list_compare_refl N.compare N.compare_eq_iff).
  - exfalso. revert H. apply Qlt_not_le. reflexivity.
  - now left.
Qed.

Lemma str_le_trans (a b c : Py.str) :
  Py.str_lt a b \/ a = b -> Py.str_lt b c \/ b = c -> Py.str_lt a c \/ a = c.
Proof.
  intros [H1| ->] [H2| ->]; auto. left. now apply str_lt_trans with b.
Qed.

Lemma unique_fold (l seen : list Py.str) :
  NoDup seen ->
  let u := fold_left
             (fun seen x => if existsb (Py.str_eqb x) seen then seen
                            else (seen ++ [x])%list) l seen in
  NoDup u /\ forall m, In m u <-> In m seen \/ In m l.
Proof.
  cbv zeta. revert seen. induction l as [|x l IH]; intros seen N; simpl.
  - split; [assumption|]. intuition.
  - destruct (existsb (Py.str_eqb x) seen) eqn:E.
    + destruct (IH seen N) as [N' I]. split; [assumption|].
      intros m. rewrite I. apply existsb_exists in E.
      destruct E as [y [Hy E]]. apply str_eqb_eq in E. subst y.
      intuition. subst. auto.
    + assert (X : ~ In x seen).
      { intros H. apply not_true_iff_false in E. apply E.
        apply existsb_exists. exists x. split; [assumption|].
        now apply str_eqb_eq. }
      destruct (IH (seen ++ [x])%list) as [N' I].
      { apply NoDup_app; [assumption|repeat constructor; intros []|].
        intros y Hy [<-|[]]. contradiction. }
      split; [assumption|]. intros m. rewrite I, in_app_iff. simpl.
      intuition.
Qed.

(** The known members are in strictly increasing order of their code
    points, so each is there once; they are the cleaned names of the member
    column that are not empty. *)
Theorem members_sorted_distinct (member_column : list (option Py.str)) :
  let ms := Py.members (Py.member_clean member_column) in
  StronglySorted Py.str_lt ms /\
  (forall m, In m ms <->
             m <> [] /\
             exists x, In x member_column /\ Py.clean_member_name x = m).
Proof.
  cbv zeta. unfold Py.members, Py.sorted, Py.member_clean.
  set (col := map Py.clean_member_name member_column).
  set (l := filter (fun m => negb (Py.is_empty (Py.strip m))) (Py.unique col)).
  pose proof (sort_perm Py.str_cmp l) as P.
  destruct (unique_fold col [] (NoDup_nil _)) as [U I]. fold (Py.unique col) in U, I.
  split.
  - apply sorted_le_NoDup_lt.
    + apply (sort_sorted Py.str_cmp (fun a b => Py.str_lt a b \/ a = b)).
      * apply str_cmp_lt_le.
      * apply str_cmp_ge_le.
      * apply str_le_trans.
    + apply (Permutation_NoDup (Permutation_sym P)).
      unfold l. now apply NoDup_filter.
  - intros m.
    assert (S : In m col -> Py.strip m = m).
    { intros H. apply in_map_iff in H. destruct H as [[y|] [<- _]].
      - destruct (clean_member_name_parts y) as [E W].
        rewrite E. now apply strip_join.
      - reflexivity. }
    split.
    + intros H. apply (Permutation_in _ P) in H. unfold l in H.
      apply filter_In in H. destruct H as [H B]. apply I in H.
      destruct H as [[]|H]. split.
      * intros ->. discriminate.
      * apply in_map_iff in H. destruct H as [x [E H]]. eauto.
    + intros [N [x [H E]]]. apply (Permutation_in _ (Permutation_sym P)).
      assert (C : In m col) by (apply in_map_iff; eauto).
      unfold l. apply filter_In. split; [apply I; now right|].
      rewrite (S C). destruct m; [congruence|reflexivity].
Qed.


(** *** [parse_amount] *)

Lemma space_not_significant (c : N) :
  Py.isspace c = true -> Py.significant c = false.
Proof.
  intros H. apply not_true_iff_false. intros S.
  unfold Py.isspace in H. unfold Py.significant, Py.kept, Py.is_digit in S.
  rewrite ?orb_true_iff, ?andb_true_iff, ?N.leb_le, ?N.eqb_eq in H.
  rewrite ?orb_true_iff, ?andb_true_iff, ?N.leb_le, ?N.eqb_eq in S. lia.
Qed.

Lemma significant_lstrip (s : Py.str) :
  filter Py.significant (Py.lstrip s) = filter Py.significant s.
Proof.
  induction s as [|c s IH]; [reflexivity|]. simpl.
  destruct (Py.isspace c) eqn:E; [|reflexivity].
  now rewrite (space_not_significant c E).
Qed.

Lemma significant_strip (s : Py.str) :
  filter Py.significant (Py.strip s) = filter Py.significant s.
Proof.
  unfold Py.strip, Py.rstrip.
  rewrite filter_rev, significant_lstrip, filter_rev, rev_involutive.
  apply significant_lstrip.
Qed.

Lemma significant_remove (c : N) (s : Py.str) :
  Py.significant c = false ->
  filter Py.significant (Py.remove c s) = filter Py.significant s.
Proof.
  intros H. unfold Py.remove. apply filter_filter_imp. intros x S.
  apply negb_true_iff, N.eqb_neq. intros ->. congruence.
Qed.

Lemma count_filter (c : N) (p : N -> bool) (s : Py.str) :
  p c = true -> Py.count c (filter p s) = Py.count c s.
Proof.
  intros H. unfold Py.count. f_equal. apply filter_filter_imp.
  intros x E. apply N.eqb_eq in E. now subst.
Qed.

Lemma kept_significant (c : N) : Py.kept c = true -> Py.significant c = true.
Proof. intros H. unfold Py.significant. now rewrite H. Qed.

Lemma kept_of_significant (s : Py.str) :
  filter Py.kept (filter Py.significant s) = filter Py.kept s.
Proof. apply filter_filter_imp, kept_significant. Qed.

Lemma significant_idem (s : Py.str) :
  filter Py.significant (filter Py.significant s) = filter Py.significant s.
Proof. apply filter_filter_imp. auto. Qed.

Lemma kept_replace_comma (s : Py.str) :
  filter Py.kept (Py.replace_char 44 46 s) =
  Py.replace_char 44 46 (filter Py.significant s).
Proof.
  induction s as [|c s IH]; [reflexivity|]. simpl.
  destruct (N.eqb_spec c 44) as [->|X].
  - simpl. now rewrite IH.
  - unfold Py.significant at 1. apply N.eqb_neq in X. rewrite X, orb_false_r.
    destruct (Py.kept c); simpl; rewrite ?X, IH; reflexivity.
Qed.

Lemma read_number_significant (s : Py.str) :
  Py.read_number s = Py.read_number (filter Py.significant s).
Proof.
  unfold Py.read_number. cbv zeta.
  rewrite !count_filter by reflexivity.
  destruct (Nat.eqb (Py.count 44 s) 1 && Nat.eqb (Py.count 46 s) 0).
  - now rewrite !kept_replace_comma, significant_idem.
  - now rewrite kept_of_significant.
Qed.

(** What [parse_amount] returns is read off the significant characters. *)
Lemma parse_amount_core (s : Py.str) :
  Py.parse_amount (Some s) = Py.read_number (filter Py.significant s).
Proof.
  unfold Py.parse_amount. cbv zeta.
  rewrite <- (significant_strip s).
  destruct (Py.strip s) as [|c t]; [reflexivity|]. cbn [Py.is_empty].
  rewrite read_number_significant, !significant_remove by reflexivity.
  reflexivity.
Qed.

(** The amount read depends only on the digits, the points, the commas and
    the minus signs of the text, in their order: spaces of any kind,
    currency signs and any other characters, wherever they are, change
    nothing. *)
Theorem parse_amount_reads_significant_only (s : Py.str) :
  Py.parse_amount (Some s) =
  Py.parse_amount (Some (filter Py.significant s)).
Proof. now rewrite !parse_amount_core, significant_idem. Qed.

Lemma count_remove_same (c : N) (s : Py.str) :
  Py.count c (Py.remove c s) = 0%nat.
Proof.
  unfold Py.count, Py.remove. induction s as [|x s IH]; [reflexivity|].
  simpl. destruct (N.eqb_spec x c) as [->|X]; simpl; [exact IH|].
  destruct (N.eqb_spec c x) as [->|_]; [congruence|exact IH].
Qed.

(** A comma is a decimal separator only when it is the only comma of the
    text and the text has no point.  When the text has a point, or more
    than one comma, the commas are dropped: the amount is that of the text
    without them. *)
Theorem parse_amount_drops_other_commas (s : Py.str) :
  (Py.count 46 s <> 0 \/ Py.count 44 s <> 1)%nat ->
  Py.parse_amount (Some s) = Py.parse_amount (Some (Py.remove 44 s)).
Proof.
  intros H. rewrite !parse_amount_core.
  unfold Py.remove at 1. rewrite filter_filter_comm.
  fold (Py.remove 44 (filter Py.significant s)).
  assert (C : Nat.eqb (Py.count 44 (filter Py.significant s)) 1
              && Nat.eqb (Py.count 46 (filter Py.significant s)) 0 = false).
  { rewrite !count_filter by reflexivity. apply andb_false_iff.
    destruct H as [H|H]; [right|left]; now apply Nat.eqb_neq. }
  unfold Py.read_number. cbv zeta. rewrite C, count_remove_same. simpl.
  assert (K : filter Py.kept (Py.remove 44 (filter Py.significant s)) =
              filter Py.kept (filter Py.significant s)).
  { unfold Py.remove. apply filter_filter_imp. intros x E.
    apply negb_true_iff, N.eqb_neq. intros ->. discriminate. }
  now rewrite K.
Qed.

(** The text "1.234,56", and what is read without its comma. *)
Lemma parse_amount_drops_other_commas_witness :
  (Py.count 46 [49; 46; 50; 51; 52; 44; 53; 54]%N <> 0 \/
   Py.count 44 [49; 46; 50; 51; 52; 44; 53; 54]%N <> 1)%nat /\
  Py.parse_amount (Some [49; 46; 50; 51; 52; 44; 53; 54]%N) =
  Py.parse_amount (Some [49; 46; 50; 51; 52; 53; 54]%N).
Proof.
  assert (H : (Py.count 46 [49; 46; 50; 51; 52; 44; 53; 54]%N <> 0 \/
               Py.count 44 [49; 46; 50; 51; 52; 44; 53; 54]%N <> 1)%nat)
    by (left; discriminate).
  split; [exact H|].
  apply (parse_amount_drops_other_commas
           [49; 46; 50; 51; 52; 44; 53; 54]%N H).
Defined.

(** Strings of digits. *)

Lemma span_digits_app (a rest : Py.str) :
  Forall (fun c => Py.is_digit c = true) a ->
  (forall c t, rest = c :: t -> Py.is_digit c = false) ->
  Py.span_digits (a ++ rest) = (a, rest).
Proof.
  intros Da R. induction Da as [|c a Hc Da IH]; simpl.
  - destruct rest as [|c t]; [reflexivity|]. simpl.
    now rewrite (R c t eq_refl).
  - now rewrite Hc, IH.
Qed.

Lemma span_digits_none (s : Py.str) :
  Forall (fun c => Py.is_digit c = false) s -> Py.span_digits s = ([], s).
Proof.
  intros [|c t Hc _]; [reflexivity|]. simpl. now rewrite Hc.
Qed.

Lemma float_unsigned_none (s : Py.str) :
  Forall (fun c => Py.is_digit c = false) s -> Py.float_unsigned s = None.
Proof.
  intros F. unfold Py.float_unsigned. rewrite span_digits_none by assumption.
  destruct s as [|c fp]; [reflexivity|].
  inversion F as [|? ? Hc F']; subst.
  destruct fp as [|d fp].
  - simpl. now rewrite andb_false_r.
  - inversion F' as [|? ? Hd _]; subst. simpl. rewrite Hd. simpl.
    now rewrite andb_false_r.
Qed.

Lemma filter_no_digit (p : N -> bool) (s : Py.str) :
  Forall (fun c => Py.is_digit c = false) s ->
  Forall (fun c => Py.is_digit c = false) (filter p s).
Proof.
  intros F. apply Forall_forall. intros c H. apply filter_In in H.
  rewrite Forall_forall in F. now apply F.
Qed.

Lemma replace_no_digit (s : Py.str) :
  Forall (fun c => Py.is_digit c = false) s ->
  Forall (fun c => Py.is_digit c = false) (Py.replace_char 44 46 s).
Proof.
  intros F. unfold Py.replace_char. apply Forall_map.
  eapply Forall_impl; [|exact F]. intros c H. simpl.
  destruct (N.eqb c 44); [reflexivity|exact H].
Qed.

(** A missing value gives zero, and so does a text without any digit: no
    conversion error reaches the caller. *)
Theorem parse_amount_without_digit :
  Py.parse_amount None = 0 /\
  forall s, Forall (fun c => Py.is_digit c = false) s ->
            Py.parse_amount (Some s) = 0.
Proof.
  split; [reflexivity|]. intros s F. rewrite parse_amount_core.
  unfold Py.read_number. cbv zeta.
  set (u := if Nat.eqb (Py.count 44 (filter Py.significant s)) 1
               && Nat.eqb (Py.count 46 (filter Py.significant s)) 0
            then Py.replace_char 44 46 (filter Py.significant s)
            else filter Py.significant s).
  assert (D : Forall (fun c => Py.is_digit c = false) (filter Py.kept u)).
  { apply filter_no_digit. unfold u.
    destruct (_ && _); [apply replace_no_digit|]; now apply filter_no_digit. }
  destruct (_ || _); [reflexivity|].
  assert (X : Py.float (filter Py.kept u) = None).
  { unfold Py.float. destruct (filter Py.kept u) as [|c t] eqn:E.
    - now apply float_unsigned_none.
    - destruct (N.eqb c 45).
      + inversion D; subst. now rewrite float_unsigned_none.
      + now apply float_unsigned_none. }
  now rewrite X.
Qed.

Lemma count_app (c : N) (x y : Py.str) :
  Py.count c (x ++ y) = (Py.count c x + Py.count c y)%nat.
Proof. unfold Py.count. now rewrite filter_app, length_app. Qed.

Lemma count_digits (c : N) (a : Py.str) :
  Forall (fun d => Py.is_digit d = true) a -> Py.is_digit c = false ->
  Py.count c a = 0%nat.
Proof.
  intros Da Hc. unfold Py.count. induction Da as [|d a Hd Da IH]; simpl.
  - reflexivity.
  - destruct (N.eqb_spec c d) as [->|_]; [congruence|exact IH].
Qed.

Lemma kept_digits (a : Py.str) :
  Forall (fun d => Py.is_digit d = true) a -> filter Py.kept a = a.
Proof.
  induction 1 as [|d a Hd Da IH]; simpl; [reflexivity|].
  unfold Py.kept at 1. rewrite Hd. simpl. now rewrite IH.
Qed.

Lemma replace_digits (a : Py.str) :
  Forall (fun d => Py.is_digit d = true) a -> Py.replace_char 44 46 a = a.
Proof.
  induction 1 as [|d a Hd Da IH]; simpl; [reflexivity|].
  rewrite IH. destruct (N.eqb_spec d 44) as [->|_]; [discriminate|reflexivity].
Qed.

Lemma str_eqb_neq (a b : Py.str) : a <> b -> Py.str_eqb a b = false.
Proof.
  intros H. apply not_true_iff_false. intros E. now apply str_eqb_eq in E.
Qed.

Section Decimal.

Variable neg : bool.
Variables a b : Py.str.

Hypothesis digits_a : Forall (fun d => Py.is_digit d = true) a.
Hypothesis digits_b : Forall (fun d => Py.is_digit d = true) b.
Hypothesis a_not_empty : a <> [].

#[local] Abbreviation sign := (if neg then [45%N] else []).

Lemma not_special (rest : Py.str) :
  Py.str_eqb (sign ++ a ++ rest) [] || Py.str_eqb (sign ++ a ++ rest) [45%N]
  || Py.str_eqb (sign ++ a ++ rest) [46%N] = false.
Proof.
  destruct a as [|d a']; [congruence|]. inversion digits_a; subst.
  assert (D : d <> 45%N /\ d <> 46%N).
  { split; intros ->; discriminate. }
  rewrite !str_eqb_neq; [reflexivity| | |]; destruct neg; simpl;
    intros E; inversion E; tauto.
Qed.

Lemma float_point :
  Py.float (sign ++ a ++ 46%N :: b) = Some (Py.decimal neg a b).
Proof.
  assert (U : Py.float_unsigned (a ++ 46%N :: b) =
              Some (Py.decimal false a b)).
  { unfold Py.float_unsigned. rewrite span_digits_app; [|assumption|].
    - change (46 =? 46)%N with true.
      assert (F : forallb Py.is_digit b = true).
      { apply forallb_forall. now apply Forall_forall. }
      rewrite F. destruct a; [congruence|]. reflexivity.
    - intros c t [= <- _]. reflexivity. }
  unfold Py.float. destruct neg; simpl.
  - rewrite U. reflexivity.
  - destruct a as [|d a']; [congruence|]. inversion digits_a; subst.
    simpl. destruct (N.eqb_spec d 45) as [->|_]; [discriminate|].
    exact U.
Qed.

Lemma float_integer :
  Py.float (sign ++ a) =
  Some (if neg then - inject_Z (Py.digits_value a)
        else inject_Z (Py.digits_value a)).
Proof.
  assert (U : Py.float_unsigned a = Some (inject_Z (Py.digits_value a))).
  { unfold Py.float_unsigned. rewrite <- (app_nil_r a) at 1.
    rewrite span_digits_app; [|assumption|discriminate].
    destruct a; [congruence|reflexivity]. }
  unfold Py.float. destruct neg; simpl.
  - rewrite U. reflexivity.
  - destruct a as [|d a']; [congruence|]. inversion digits_a; subst.
    destruct (N.eqb_spec d 45) as [->|_]; [discriminate|].
    exact U.
Qed.

Lemma kept_number (rest : Py.str) :
  Forall (fun c => Py.kept c = true) rest ->
  filter Py.kept (sign ++ a ++ rest) = sign ++ a ++ rest.
Proof.
  intros K. rewrite !filter_app, (kept_digits a) by assumption.
  f_equal; [now destruct neg|]. f_equal.
  induction K as [|c r Hc K IH]; simpl; [reflexivity|]. now rewrite Hc, IH.
Qed.

Lemma count_number (c : N) (rest : Py.str) :
  Py.is_digit c = false -> c <> 45%N ->
  Py.count c (sign ++ a ++ rest) = Py.count c rest.
Proof.
  intros Hc N. rewrite !count_app, (count_digits c a) by assumption.
  destruct neg; simpl; [|reflexivity].
  unfold Py.count. simpl.
  destruct (N.eqb_spec c 45); [congruence|reflexivity].
Qed.

Lemma kept_fraction : Forall (fun c => Py.kept c = true) (46%N :: b).
Proof.
  constructor; [reflexivity|]. eapply Forall_impl; [|exact digits_b].
  intros c H. unfold Py.kept. now rewrite H.
Qed.

Lemma read_number_no_comma (rest : Py.str) :
  Forall (fun c => Py.kept c = true) rest -> Py.count 44 rest = 0%nat ->
  Py.read_number (sign ++ a ++ rest) =
  match Py.float (sign ++ a ++ rest) with Some v => v | None => 0 end.
Proof.
  intros K C. unfold Py.read_number. cbv zeta.
  rewrite (count_number 44) by (reflexivity || discriminate).
  rewrite C. simpl andb. cbv iota.
  rewrite kept_number by assumption. now rewrite not_special.
Qed.

Lemma read_number_point :
  Py.read_number (sign ++ a ++ 46%N :: b) = Py.decimal neg a b.
Proof.
  rewrite read_number_no_comma, float_point; [reflexivity|apply kept_fraction|].
  change (Py.count 44 (46%N :: b)) with (Py.count 44 b).
  now rewrite count_digits.
Qed.

Lemma read_number_comma :
  Py.read_number (sign ++ a ++ 44%N :: b) = Py.decimal neg a b.
Proof.
  unfold Py.read_number. cbv zeta.
  rewrite !count_number by (reflexivity || discriminate).
  assert (C4 : Py.count 44 (44%N :: b) = 1%nat).
  { change (Py.count 44 (44%N :: b)) with (S (Py.count 44 b)).
    now rewrite count_digits. }
  assert (C6 : Py.count 46 (44%N :: b) = 0%nat).
  { change (Py.count 46 (44%N :: b)) with (Py.count 46 b).
    now rewrite count_digits. }
  rewrite C4, C6. simpl andb. cbv iota.
  assert (R : Py.replace_char 44 46 (sign ++ a ++ 44%N :: b) =
              sign ++ a ++ 46%N :: b).
  { unfold Py.replace_char. rewrite !map_app. simpl.
    fold (Py.replace_char 44 46 a). fold (Py.replace_char 44 46 b).
    rewrite !replace_digits by assumption. now destruct neg. }
  rewrite R, kept_number by apply kept_fraction.
  now rewrite not_special, float_point.
Qed.

Lemma read_number_integer :
  Py.read_number (sign ++ a ++ []) =
  if neg then - inject_Z (Py.digits_value a)
  else inject_Z (Py.digits_value a).
Proof.
  rewrite read_number_no_comma by (constructor || reflexivity).
  now rewrite app_nil_r, float_integer.
Qed.

End Decimal.

(** An amount written with digits, then possibly a decimal point or a
    decimal comma and more digits, possibly after a minus sign, and with
    anything else around and between (spaces, a currency sign), is read as
    the decimal number it writes. *)
Theorem parse_amount_decimal (s : Py.str) (neg : bool) (a b tail : Py.str) :
  Forall (fun d => Py.is_digit d = true) a ->
  Forall (fun d => Py.is_digit d = true) b ->
  a <> [] ->
  filter Py.significant s = (if neg then [45%N] else []) ++ a ++ tail ->
  (tail = [] /\ b = []) \/ tail = 44%N :: b \/ tail = 46%N :: b ->
  Py.parse_amount (Some s) == Py.decimal neg a b.
Proof.
  intros Da Db Na E T. rewrite parse_amount_core, E.
  destruct T as [[-> ->]|[->| ->]].
  - rewrite read_number_integer by assumption.
    unfold Py.decimal. simpl. change (Py.digits_value []) with 0%Z.
    change (inject_Z 0) with 0. change (inject_Z 1) with 1.
    destruct neg; field.
  - now rewrite read_number_comma.
  - now rewrite read_number_point.
Qed.

(** The text "288,9 " of the embedded example. *)
Lemma parse_amount_decimal_witness :
  Forall (fun d => Py.is_digit d = true) [50; 56; 56]%N /\
  Forall (fun d => Py.is_digit d = true) [57%N] /\
  [50; 56; 56]%N <> [] /\
  Py.parse_amount (Some [50; 56; 56; 44; 57; 32]%N) ==
  Py.decimal false [50; 56; 56]%N [57%N].
Proof.
  assert (Da : Forall (fun d => Py.is_digit d = true) [50; 56; 56]%N)
    by (repeat constructor).
  assert (Db : Forall (fun d => Py.is_digit d = true) [57%N])
    by (repeat constructor).
  assert (Na : [50; 56; 56]%N <> []) by discriminate.
  split; [exact Da|]. split; [exact Db|]. split; [exact Na|].
  apply (parse_amount_decimal [50; 56; 56; 44; 57; 32]%N false
           [50; 56; 56]%N [57%N] [44; 57]%N Da Db Na eq_refl
           (or_intror (or_introl eq_refl))).
Defined.

End Ingestion.

(** ** The finals of the reimbursement table *)

Section Finals.

Variable MEMBERS : list string.
Variable records : list ExpenseRecord.
Variable SUM_GAIN : Q.
Variable gran : Granularity.
Variable selected : list string.
Variable weight_input : string -> Q.

Lemma final_after_post_get (m : string) :
  In m MEMBERS ->
  let L := locals MEMBERS records SUM_GAIN gran selected weight_input in
  final_after_post (result_of L m) =
  Fin (Qor0 (remaining_gain L *
             Qor0 (normalized_weight MEMBERS weight_input m))
       - Qget0 (post_totals_by_member (Allocator.totals L)) m).
Proof.
  intros H. cbv zeta. cbn [final_after_post result_of]. unfold get0 at 1.
  rewrite part_after_ante_get, weights_get0 by assumption. reflexivity.
Qed.

(** When at least one member is known, the known members are distinct and
    every record is attributed to one of them, the final amounts of the rows
    add up to the remaining gain minus all the POST amounts.  If moreover
    the gain covers the ANTE amounts, they add up to the gain minus all the
    amounts of the ledger. *)
Theorem finals_add_up :
  MEMBERS <> [] -> NoDup MEMBERS ->
  (forall r, In r records -> In (member r) MEMBERS) ->
  let L := locals MEMBERS records SUM_GAIN gran selected weight_input in
  let rows :=
    rendered_rows MEMBERS
      (compute_reimbursements_and_render MEMBERS records SUM_GAIN gran
         selected weight_input) in
  num_eq (num_sum (map (fun mr => final_after_post (snd mr)) rows))
         (Fin (remaining_gain L -
               sum_amounts (Spec.POST records gran selected))) /\
  (sum_amounts (Spec.ANTE records gran selected) <= SUM_GAIN ->
   num_eq (num_sum (map (fun mr => final_after_post (snd mr)) rows))
          (Fin (SUM_GAIN - sum_amounts records))).
Proof.
  intros E N K. cbv zeta.
  set (L := locals MEMBERS records SUM_GAIN gran selected weight_input).
  assert (S : num_eq
                (num_sum
                   (map (fun mr => final_after_post (snd mr))
                      (rendered_rows MEMBERS
                         (compute_reimbursements_and_render MEMBERS records
                            SUM_GAIN gran selected weight_input))))
                (Fin (remaining_gain L -
                      sum_amounts (Spec.POST records gran selected)))).
  { unfold compute_reimbursements_and_render. rewrite rendered_rows_eq.
    rewrite map_map. cbn [snd].
    rewrite (num_sum_Fin _
      (fun m => Qor0 (remaining_gain L *
                      Qor0 (normalized_weight MEMBERS weight_input m))
                - Qget0 (post_totals_by_member (Allocator.totals L)) m)).
    - cbn [num_eq].
      rewrite (Qsum_map_eq _
        (fun m => remaining_gain L * normalized_weight MEMBERS weight_input m
                  + (- 1) * sum_amounts
                              (of_member m (Spec.POST records gran selected)))).
      + rewrite Qsum_map_plus, !Qsum_map_scale, (weight_of_sum _ _ E).
        rewrite sum_by_member; [ring|exact N|].
        intros r Hr. apply K. unfold Spec.POST in Hr.
        now apply filter_In in Hr.
      + intros m _. rewrite !Qor0_eq. unfold L. cbn [Allocator.totals locals].
        rewrite post_member_spec. ring.
    - intros m H. now apply final_after_post_get. }
  split; [exact S|]. intros C.
  destruct (num_sum _) as [q| | |]; cbn [num_eq] in *; try contradiction.
  rewrite S.
  pose proof (total_ante_spec MEMBERS records gran selected) as TA.
  pose proof (sum_amounts_partition (selects gran selected) records) as P.
  fold (Spec.ANTE records gran selected) in P.
  fold (Spec.POST records gran selected) in P.
  unfold L. rewrite remaining_gain_eq, covered_ante_eq.
  destruct (Q.min_spec SUM_GAIN
              (total_ante (sum_totals MEMBERS records gran selected)))
    as [[H1 E1]|[H1 E1]]; rewrite E1;
    match goal with |- context [Qmax ?a ?b] =>
      destruct (Q.max_spec a b) as [[H' E']|[H' E']]; rewrite E' end;
    lra.
Qed.

End Finals.

(** The ledger of the shared expenses with a gain of 100. *)
Lemma finals_add_up_witness :
  Sample.members <> [] /\ NoDup Sample.members /\
  (forall r, In r Sample.shared -> In (member r) Sample.members) /\
  sum_amounts (Spec.ANTE Sample.shared GType ["asso"]) <= 100 /\
  num_eq
    (num_sum
       (map (fun mr => final_after_post (snd mr))
          (rendered_rows Sample.members
             (compute_reimbursements_and_render Sample.members Sample.shared
                100 GType ["asso"] Sample.halves))))
    (Fin (100 - sum_amounts Sample.shared)).
Proof.
  assert (E : Sample.members <> []) by discriminate.
  assert (N : NoDup Sample.members).
  { repeat constructor; simpl; intuition discriminate. }
  assert (K : forall r, In r Sample.shared -> In (member r) Sample.members).
  { intros r H. simpl in H.
    repeat (destruct H as [<-|H]; [simpl; tauto|]). destruct H. }
  assert (C : sum_amounts (Spec.ANTE Sample.shared GType ["asso"]) <= 100)
    by (vm_compute; discriminate).
  split; [exact E|]. split; [exact N|]. split; [exact K|]. split; [exact C|].
  exact (proj2 (finals_add_up Sample.members Sample.shared 100 GType ["asso"]
                  Sample.halves E N K) C).
Defined.
